(** * Word error rate: normaliser, aligner and metrics of asr-result-visualizer

    A shallow embedding of [src/lib/wer.ts] (text normalisation, the
    Wagner-Fischer cost matrix, the backtracking loop and the metrics report)
    and of [calculateResults] of the page component, followed by the
    properties the specification states about them.

    Conventions of the embedding:
    - a JavaScript string is the list of its UTF-16 code units, each an [N];
      the regular expressions of the source carry no [u] flag, so they work
      on code units as well;
    - array lengths, loop indices and edit costs are [nat]; the position
      counters [refPos] and [predPos] start at [m - 1] and [n - 1], which is
      [-1] for an empty sequence, so they are [Z];
    - rates are exact rationals ([Q]); the source computes the IEEE double
      nearest to the same quotient;
    - the [while] loop of the aligner is iterated with an explicit budget of
      iterations; [None] is returned only when the budget runs out, and
      [alignWordsWithPositions_returns] shows that it never does. *)

From Stdlib Require Import QArith.
From stdpp Require Import base list numbers strings sorting.

Local Open Scope nat_scope.

(** ** JavaScript strings *)

Abbreviation jsstring := (list N) (only parsing).

(** ASCII literals as code-unit lists, for concrete inputs. *)
Definition js (s : string) : jsstring :=
  map Ascii.N_of_ascii (String.list_ascii_of_string s).

Definition SPACE : N := 32%N.

Definition inRange (lo hi c : N) : bool := ((lo <=? c) && (c <=? hi))%N.

(** The class [\w] of a regular expression without the [i] and [u] flags:
    [A-Za-z0-9_]. *)
Definition isWordChar (c : N) : bool :=
  inRange 65 90 c || inRange 97 122 c || inRange 48 57 c || (c =? 95)%N.

(** The class [\s]: ECMAScript WhiteSpace and LineTerminator code points
    (TAB, LF, VT, FF, CR, SP, NBSP, U+1680, U+2000-U+200A, LS, PS, U+202F,
    U+205F, U+3000, BOM).  [String.prototype.trim] strips the same set. *)
Definition isWhiteSpace (c : N) : bool :=
  inRange 9 13 c || (c =? 32)%N || (c =? 0xA0)%N || (c =? 0x1680)%N
  || inRange 0x2000 0x200A c || (c =? 0x2028)%N || (c =? 0x2029)%N
  || (c =? 0x202F)%N || (c =? 0x205F)%N || (c =? 0x3000)%N || (c =? 0xFEFF)%N.

(** The negated class [[^\w\s\u00C0-\u024F\u1E00-\u1EFF]]. *)
Definition isPunctuation (c : N) : bool :=
  negb (isWordChar c || isWhiteSpace c
        || inRange 0xC0 0x24F c || inRange 0x1E00 0x1EFF c).

(** [processed.replace(/[^\w\s\u00C0-\u024F\u1E00-\u1EFF]/g, ' ')] *)
Definition replacePunctuation (s : jsstring) : jsstring :=
  map (fun c => if isPunctuation c then SPACE else c) s.

(** [processed.replace(/\s+/g, ' ')]: every maximal run of white space
    becomes one space.  [inRun] tells that the previous code unit belonged
    to the run being replaced. *)
Fixpoint collapseWhiteSpace (inRun : bool) (s : jsstring) : jsstring :=
  match s with
  | [] => []
  | c :: s' =>
      if isWhiteSpace c
      then if inRun then collapseWhiteSpace true s'
           else SPACE :: collapseWhiteSpace true s'
      else c :: collapseWhiteSpace false s'
  end.

Fixpoint trimStart (s : jsstring) : jsstring :=
  match s with
  | [] => []
  | c :: s' => if isWhiteSpace c then trimStart s' else s
  end.

(** [String.prototype.trim] *)
Definition trim (s : jsstring) : jsstring :=
  reverse (trimStart (reverse (trimStart s))).

(** [text.split(/\s+/)]: the fragments between the maximal runs of white
    space, the empty leading and trailing ones included ([''.split(/\s+/)]
    is [['']]).  [cur] is the fragment being read. *)
Fixpoint splitWhiteSpace (cur : jsstring) (inRun : bool) (s : jsstring)
  : list jsstring :=
  match s with
  | [] => [cur]
  | c :: s' =>
      if isWhiteSpace c
      then if inRun then splitWhiteSpace [] true s'
           else cur :: splitWhiteSpace [] true s'
      else splitWhiteSpace (cur ++ [c]) false s'
  end.

(** [text.split(/\s+/).filter((word) => word.length > 0)] *)
Definition tokenize (text : jsstring) : list jsstring :=
  filter (fun word => 0 < length word) (splitWhiteSpace [] false text).

(** ** Data model of [wer.ts] *)

Inductive AlignmentType := correct | substitution | insertion | deletion.

#[global] Instance AlignmentType_eq_dec : EqDecision AlignmentType.
Proof. solve_decision. Defined.

Record AlignmentResult := {
  reference : jsstring;
  prediction : jsstring;
  type : AlignmentType;
  referencePosition : option Z;
  predictionPosition : option Z
}.

(** [ErrorDetail]; its [type] field only takes the three error tags. *)
Record ErrorDetail := {
  errorType : AlignmentType;
  referenceWord : option jsstring;
  predictionWord : option jsstring;
  errorReferencePosition : option Z;
  errorPredictionPosition : option Z
}.

Record WERResult := {
  wer : Q;
  substitutions : nat;
  insertions : nat;
  deletions : nat;
  totalWords : nat;
  substitutionRate : Q;
  insertionRate : Q;
  deletionRate : Q;
  alignment : list AlignmentResult;
  detailedErrors : list ErrorDetail
}.

Record PreprocessOptions := {
  lowercase : bool;
  removePunctuation : bool;
  removeExtraSpaces : bool
}.

Definition DEFAULT_PREPROCESS_OPTIONS : PreprocessOptions :=
  {| lowercase := true; removePunctuation := true; removeExtraSpaces := true |}.

(** ** The text normaliser *)

Section Normalizer.
(** [String.prototype.toLowerCase] is a built-in of the engine (the full
    Unicode case mapping); it is a parameter of the embedding. *)
Variable toLowerCase : jsstring -> jsstring.

Definition preprocessText (text : jsstring) (options : PreprocessOptions)
  : jsstring :=
  let processed := text in
  let processed :=
    if lowercase options then toLowerCase processed else processed in
  let processed :=
    if removePunctuation options then replacePunctuation processed
    else processed in
  let processed :=
    if removeExtraSpaces options
    then trim (collapseWhiteSpace false processed) else processed in
  processed.
End Normalizer.

(** [toLowerCase] on strings of ASCII code units, where it maps [A-Z] to
    [a-z] and nothing else; used to run the normaliser on concrete inputs. *)
Definition asciiToLowerCase (s : jsstring) : jsstring :=
  map (fun c => if inRange 65 90 c then (c + 32)%N else c) s.

(** ** The aligner *)

(** The table [dp]: an array of [m + 1] rows, each a fresh array of
    [n + 1] numbers.  Reads and writes of the source stay inside the table
    ([costMatrix_shape]); outside, the embedding reads [0] and leaves the
    table unchanged. *)
Definition dpGet (dp : list (list nat)) (i j : nat) : nat :=
  (dp !!! i) !!! j.

Definition dpSet (dp : list (list nat)) (i j v : nat) : list (list nat) :=
  <[i := <[j := v]> (dp !!! i)]> dp.

(** [Array(m + 1).fill(null).map(() => Array(n + 1).fill(0))] *)
Definition newTable (m n : nat) : list (list nat) :=
  replicate (S m) (replicate (S n) 0).

Section Aligner.
Variables ref pred : list jsstring.

(** [ref[i - 1] === pred[j - 1]]; an index outside an array reads
    [undefined], here [None]. *)
Definition sameWord (i j : nat) : bool :=
  bool_decide (ref !! (i - 1) = pred !! (j - 1)).

(** Body of the inner loop of the Wagner-Fischer fill. *)
Definition fillCell (i : nat) (dp : list (list nat)) (j : nat)
  : list (list nat) :=
  if sameWord i j then dpSet dp i j (dpGet dp (i - 1) (j - 1))
  else
    let substitutionCost := dpGet dp (i - 1) (j - 1) + 1 in
    let deletionCost := dpGet dp (i - 1) j + 1 in
    let insertionCost := dpGet dp i (j - 1) + 1 in
    dpSet dp i j (substitutionCost `min` (deletionCost `min` insertionCost)).

(** The cost matrix after the two initialisation loops and the nested
    fill loops, in the order of the source. *)
Definition costMatrix : list (list nat) :=
  let m := length ref in
  let n := length pred in
  let dp := newTable m n in
  let dp := foldl (fun dp i => dpSet dp i 0 i) dp (seq 0 (S m)) in
  let dp := foldl (fun dp j => dpSet dp 0 j j) dp (seq 0 (S n)) in
  foldl (fun dp i => foldl (fillCell i) dp (seq 1 n)) dp (seq 1 m).

(** The variables of the backtracking loop. *)
Record BacktrackState := {
  bt_i : nat;
  bt_j : nat;
  refPos : Z;
  predPos : Z;
  bt_alignment : list AlignmentResult;
  bt_detailedErrors : list ErrorDetail
}.

(** One evaluation of the loop condition and, when it holds, of the loop
    body: the next state, the normal exit of the loop, or the [break] of
    the final [else]. *)
Inductive StepResult :=
| Continue (s : BacktrackState)
| LoopExit
| FallbackBreak.

Definition backtrackStep (dp : list (list nat)) (s : BacktrackState)
  : StepResult :=
  let i := bt_i s in
  let j := bt_j s in
  if negb ((0 <? i) || (0 <? j)) then LoopExit
  else if (0 <? i) && (0 <? j) && sameWord i j then
    Continue {|
      bt_i := i - 1; bt_j := j - 1;
      refPos := refPos s - 1; predPos := predPos s - 1;
      bt_alignment :=
        {| reference := ref !!! (i - 1); prediction := pred !!! (j - 1);
           type := correct;
           referencePosition := Some (refPos s);
           predictionPosition := Some (predPos s) |} :: bt_alignment s;
      bt_detailedErrors := bt_detailedErrors s |}
  else if (0 <? i) && (0 <? j)
          && (dpGet dp i j =? dpGet dp (i - 1) (j - 1) + 1) then
    Continue {|
      bt_i := i - 1; bt_j := j - 1;
      refPos := refPos s - 1; predPos := predPos s - 1;
      bt_alignment :=
        {| reference := ref !!! (i - 1); prediction := pred !!! (j - 1);
           type := substitution;
           referencePosition := Some (refPos s);
           predictionPosition := Some (predPos s) |} :: bt_alignment s;
      bt_detailedErrors :=
        {| errorType := substitution;
           referenceWord := Some (ref !!! (i - 1));
           predictionWord := Some (pred !!! (j - 1));
           errorReferencePosition := Some (refPos s);
           errorPredictionPosition := Some (predPos s) |}
        :: bt_detailedErrors s |}
  else if (0 <? i) && (dpGet dp i j =? dpGet dp (i - 1) j + 1) then
    Continue {|
      bt_i := i - 1; bt_j := j;
      refPos := refPos s - 1; predPos := predPos s;
      bt_alignment :=
        {| reference := ref !!! (i - 1); prediction := [];
           type := deletion;
           referencePosition := Some (refPos s);
           predictionPosition := None |} :: bt_alignment s;
      bt_detailedErrors :=
        {| errorType := deletion;
           referenceWord := Some (ref !!! (i - 1));
           predictionWord := None;
           errorReferencePosition := Some (refPos s);
           errorPredictionPosition := None |} :: bt_detailedErrors s |}
  else if (0 <? j) && (dpGet dp i j =? dpGet dp i (j - 1) + 1) then
    Continue {|
      bt_i := i; bt_j := j - 1;
      refPos := refPos s; predPos := predPos s - 1;
      bt_alignment :=
        {| reference := []; prediction := pred !!! (j - 1);
           type := insertion;
           referencePosition := None;
           predictionPosition := Some (predPos s) |} :: bt_alignment s;
      bt_detailedErrors :=
        {| errorType := insertion;
           referenceWord := None;
           predictionWord := Some (pred !!! (j - 1));
           errorReferencePosition := None;
           errorPredictionPosition := Some (predPos s) |}
        :: bt_detailedErrors s |}
  else FallbackBreak.

(** How the loop was left. *)
Inductive LoopEnd := ConditionFalse | Broke.

(** [while (i > 0 || j > 0) { ... }], at most [budget] evaluations of the
    condition. *)
Fixpoint backtrack (dp : list (list nat)) (budget : nat) (s : BacktrackState)
  : option (LoopEnd * BacktrackState) :=
  match budget with
  | 0 => None
  | S budget' =>
      match backtrackStep dp s with
      | Continue s' => backtrack dp budget' s'
      | LoopExit => Some (ConditionFalse, s)
      | FallbackBreak => Some (Broke, s)
      end
  end.

Definition initialState : BacktrackState :=
  let m := length ref in
  let n := length pred in
  {| bt_i := m; bt_j := n;
     refPos := Z.of_nat m - 1; predPos := Z.of_nat n - 1;
     bt_alignment := []; bt_detailedErrors := [] |}.

Definition alignWordsWithPositions
  : option (list AlignmentResult * list ErrorDetail) :=
  let dp := costMatrix in
  match backtrack dp (S (length ref + length pred)) initialState with
  | Some (_, s) => Some (bt_alignment s, bt_detailedErrors s)
  | None => None
  end.
End Aligner.

(** ** The metrics report *)

(** A JavaScript number holding a count, as a rational. *)
Definition num (k : nat) : Q := inject_Z (Z.of_nat k).

(** The [switch] inside [alignment.forEach]; the counters are
    [(substitutions, insertions, deletions)]. *)
Definition tally (counts : nat * nat * nat) (item : AlignmentResult)
  : nat * nat * nat :=
  let '(substitutions, insertions, deletions) := counts in
  match type item with
  | substitution => (substitutions + 1, insertions, deletions)
  | insertion => (substitutions, insertions + 1, deletions)
  | deletion => (substitutions, insertions, deletions + 1)
  | correct => counts
  end.

(** [calculateWER] from the call of the aligner on (lines 80 to 115 of
    [wer.ts]): the two token arrays are aligned, the trace is tallied and
    the report is assembled. *)
Definition reportOfWords (refWords predWords : list jsstring)
  : option WERResult :=
  match alignWordsWithPositions refWords predWords with
  | None => None
  | Some (alignment, detailedErrors) =>
      let '(substitutions, insertions, deletions) :=
        foldl tally (0, 0, 0) alignment in
      let totalWords := length refWords in
      let totalErrors := substitutions + insertions + deletions in
      let wer :=
        if 0 <? totalWords then (num totalErrors / num totalWords)%Q
        else 0%Q in
      Some {|
        wer := wer;
        substitutions := substitutions;
        insertions := insertions;
        deletions := deletions;
        totalWords := totalWords;
        substitutionRate :=
          if 0 <? totalWords then (num substitutions / num totalWords)%Q
          else 0%Q;
        insertionRate :=
          if 0 <? totalWords then (num insertions / num totalWords)%Q
          else 0%Q;
        deletionRate :=
          if 0 <? totalWords then (num deletions / num totalWords)%Q
          else 0%Q;
        alignment := alignment;
        detailedErrors := detailedErrors |}
  end.

Section CalculateWER.
Variable toLowerCase : jsstring -> jsstring.

(** In [if (preprocessOptions)] an options object is always truthy: the
    texts are preprocessed exactly when the argument is given. *)
Definition calculateWER (reference prediction : jsstring)
  (preprocessOptions : option PreprocessOptions) : option WERResult :=
  let processedRef := reference in
  let processedPred := prediction in
  let '(processedRef, processedPred) :=
    match preprocessOptions with
    | Some options =>
        (preprocessText toLowerCase reference options,
         preprocessText toLowerCase prediction options)
    | None => (processedRef, processedPred)
    end in
  let refWords := tokenize processedRef in
  let predWords := tokenize processedPred in
  reportOfWords refWords predWords.

Definition calculateWERWithDefaults (reference prediction : jsstring)
  : option WERResult :=
  calculateWER reference prediction (Some DEFAULT_PREPROCESS_OPTIONS).

(** ** Batch statistics of the page component *)

Record DataRow := { rowReference : jsstring; rowPrediction : jsstring }.

(** [{ ...wer, index }] *)
Record IndexedResult := { result : WERResult; index : nat }.

Record OverallStats := {
  overallWer : Q;
  overallSubstitutionRate : Q;
  overallInsertionRate : Q;
  overallDeletionRate : Q;
  totalSamples : nat
}.

(** The statistics [calculateResults] stores in [overallStats], from the
    four [reduce] calls over [results]. *)
Definition overallStatsOf (results : list IndexedResult) : OverallStats :=
  let totalWords :=
    foldl (fun sum r => sum + totalWords (result r)) 0 results in
  let totalSubs :=
    foldl (fun sum r => sum + substitutions (result r)) 0 results in
  let totalIns :=
    foldl (fun sum r => sum + insertions (result r)) 0 results in
  let totalDel :=
    foldl (fun sum r => sum + deletions (result r)) 0 results in
  {| overallWer :=
       if 0 <? totalWords
       then (num (totalSubs + totalIns + totalDel) / num totalWords)%Q
       else 0%Q;
     overallSubstitutionRate :=
       if 0 <? totalWords then (num totalSubs / num totalWords)%Q else 0%Q;
     overallInsertionRate :=
       if 0 <? totalWords then (num totalIns / num totalWords)%Q else 0%Q;
     overallDeletionRate :=
       if 0 <? totalWords then (num totalDel / num totalWords)%Q else 0%Q;
     totalSamples := length results |}.

(** [data.map((row, index) => ...)], one [calculateWER] per row. *)
Fixpoint mapRows (preprocessOptions : PreprocessOptions) (index : nat)
  (data : list DataRow) : option (list IndexedResult) :=
  match data with
  | [] => Some []
  | row :: data' =>
      match calculateWER (rowReference row) (rowPrediction row)
              (Some preprocessOptions),
            mapRows preprocessOptions (S index) data' with
      | Some wer, Some rest =>
          Some ({| result := wer; index := index |} :: rest)
      | _, _ => None
      end
  end.

(** [calculateResults]: the new values of the component's [results] and
    [overallStats] from its [data] and [preprocessOptions]. *)
Definition calculateResults (data : list DataRow)
  (preprocessOptions : PreprocessOptions)
  : option (list IndexedResult * OverallStats) :=
  match mapRows preprocessOptions 0 data with
  | Some results => Some (results, overallStatsOf results)
  | None => None
  end.
End CalculateWER.

(** ** Notions used to state the properties *)

Section Recurrence.
Variables ref pred : list jsstring.

(** The Wagner-Fischer recurrence on the prefixes of lengths [i] and [j],
    as a function of the two indices rather than as a table. *)
Fixpoint editCost (i : nat) : nat -> nat :=
  match i with
  | 0 => fun j => j
  | S i' =>
      fix row (j : nat) : nat :=
        match j with
        | 0 => S i'
        | S j' =>
            if sameWord ref pred (S i') (S j') then editCost i' j'
            else (editCost i' j' + 1)
                   `min` ((editCost i' (S j') + 1) `min` (row j' + 1))
        end
  end.
End Recurrence.

(** A table of [m + 1] rows of [n + 1] cells. *)
Definition hasShape (m n : nat) (dp : list (list nat)) : Prop :=
  length dp = S m /\ Forall (fun row => length row = S n) dp.

(** The cells the fill loops have written when they stand at row [r],
    column [c]: the two borders, the rows above [r] and the cells of row
    [r] left of [c]; each holds the recurrence. *)
Definition filledUpTo (ref pred : list jsstring) (r c : nat)
    (dp : list (list nat)) : Prop :=
  hasShape (length ref) (length pred) dp /\
  forall i j, i <= length ref -> j <= length pred ->
    i = 0 \/ j = 0 \/ i < r \/ (i = r /\ j < c) ->
    dpGet dp i j = editCost ref pred i j.

(** The reference side of a trace: position and word of every entry that
    carries a reference position, in the order of the trace; likewise the
    prediction side. *)
Definition referenceSide (trace : list AlignmentResult)
  : list (Z * jsstring) :=
  omap (fun a => (fun p => (p, reference a)) <$> referencePosition a) trace.

Definition predictionSide (trace : list AlignmentResult)
  : list (Z * jsstring) :=
  omap (fun a => (fun p => (p, prediction a)) <$> predictionPosition a) trace.

(** A token array with the zero-based index of every token. *)
Definition indexed (words : list jsstring) : list (Z * jsstring) :=
  imap (fun k w => (Z.of_nat k, w)) words.

(** What holds of the loop variables at every evaluation of the loop
    condition: the counters are one below the indices, and the trace built
    so far covers exactly the tokens from the indices on. *)
Definition traceInvariant (ref pred : list jsstring) (s : BacktrackState)
  : Prop :=
  bt_i s <= length ref /\ bt_j s <= length pred /\
  refPos s = (Z.of_nat (bt_i s) - 1)%Z /\
  predPos s = (Z.of_nat (bt_j s) - 1)%Z /\
  referenceSide (bt_alignment s) = drop (bt_i s) (indexed ref) /\
  predictionSide (bt_alignment s) = drop (bt_j s) (indexed pred).

(** Number of entries of a trace with a given tag. *)
Definition countType (t : AlignmentType) (trace : list AlignmentResult) : nat :=
  length (filter (fun a => type a = t) trace).

(** The words of a text as the specification describes them: the text cut
    at its runs of white space, nothing kept of the runs, no empty word.
    [cur] is the word being read. *)
Fixpoint wordsFrom (cur : jsstring) (text : jsstring) : list jsstring :=
  match text with
  | [] => match cur with [] => [] | _ => [cur] end
  | c :: text' =>
      if isWhiteSpace c
      then match cur with
           | [] => wordsFrom [] text'
           | _ => cur :: wordsFrom [] text'
           end
      else wordsFrom (cur ++ [c]) text'
  end.

Definition whitespaceSeparatedWords (text : jsstring) : list jsstring :=
  wordsFrom [] text.

(** The code units the specification lets the punctuation step keep: word
    characters (ASCII letter, digit, underscore, or a code unit of
    U+00C0-U+024F or U+1E00-U+1EFF) and white space. *)
Definition isKept (c : N) : bool :=
  isWordChar c || inRange 0xC0 0x24F c || inRange 0x1E00 0x1EFF c
  || isWhiteSpace c.

(** The three switches off. *)
Definition NO_PREPROCESSING : PreprocessOptions :=
  {| lowercase := false; removePunctuation := false;
     removeExtraSpaces := false |}.

(** The loop variables while the backtracking walks down the diagonal
    emitting entries tagged [t] only; [k] is the common length of the two
    token arrays. *)
Definition diagonalInvariant (t : AlignmentType) (k : nat) (s : BacktrackState)
  : Prop :=
  bt_i s = bt_j s /\ length (bt_alignment s) + bt_i s = k /\
  Forall (fun a => type a = t) (bt_alignment s) /\
  (t = correct -> bt_detailedErrors s = []).

(** The mean of the per-sample [wer] values of a batch: the aggregate the
    specification rules out. *)
Definition meanOfRates (results : list IndexedResult) : Q :=
  (foldl (fun sum r => sum + wer (result r)) 0 results
   / num (length results))%Q.

(** The error count of one sample. *)
Definition totalErrors (r : WERResult) : nat :=
  substitutions r + insertions r + deletions r.

(** A text of [k] one-letter words, each followed by a space. *)
Definition manyWords (k : nat) : jsstring :=
  concat (replicate k (js "a ")).

(** The initial [preprocessOptions] of the page component. *)
Definition initialPreprocessOptions : PreprocessOptions :=
  {| lowercase := false; removePunctuation := false;
     removeExtraSpaces := true |}.

(** A batch of two rows: 4 reference words with 1 error, 6 with 2. *)
Definition sampleBatch : list DataRow :=
  [ {| rowReference := js "a b c d"; rowPrediction := js "a b c x" |};
    {| rowReference := js "a b c d e f"; rowPrediction := js "a x c y e f" |} ].

Definition sampleResults : list IndexedResult :=
  match calculateResults asciiToLowerCase sampleBatch
          initialPreprocessOptions with
  | Some (results, _) => results
  | None => []
  end.

(** The words [calculateWER] hands to the aligner for one of its two
    texts. *)
Definition wordsOf (toLowerCase : jsstring -> jsstring) (text : jsstring)
    (preprocessOptions : option PreprocessOptions) : list jsstring :=
  match preprocessOptions with
  | Some options => tokenize (preprocessText toLowerCase text options)
  | None => tokenize text
  end.

(** What the scenarios of the specification look at in a report: the
    rate in lowest terms, the three counts, the word count and the tags of
    the trace. *)
Definition summary (r : WERResult)
  : Q * nat * nat * nat * nat * list AlignmentType :=
  (Qred (wer r), substitutions r, insertions r, deletions r, totalWords r,
   type <$> alignment r).

(** ** Notions for the further properties *)

(** The detailed error a branch of the backtracking loop pushes together
    with its alignment entry: none for [correct], otherwise the fields of
    the entry that the branch copies. *)
Definition errorOf (a : AlignmentResult) : option ErrorDetail :=
  match type a with
  | correct => None
  | substitution =>
      Some {| errorType := substitution;
              referenceWord := Some (reference a);
              predictionWord := Some (prediction a);
              errorReferencePosition := referencePosition a;
              errorPredictionPosition := predictionPosition a |}
  | deletion =>
      Some {| errorType := deletion;
              referenceWord := Some (reference a);
              predictionWord := None;
              errorReferencePosition := referencePosition a;
              errorPredictionPosition := None |}
  | insertion =>
      Some {| errorType := insertion;
              referenceWord := None;
              predictionWord := Some (prediction a);
              errorReferencePosition := None;
              errorPredictionPosition := predictionPosition a |}
  end.

(** What the branch that emits a tag puts in the other fields. *)
Definition entryShape (a : AlignmentResult) : Prop :=
  match type a with
  | correct =>
      reference a = prediction a
      /\ is_Some (referencePosition a) /\ is_Some (predictionPosition a)
  | substitution =>
      reference a <> prediction a
      /\ is_Some (referencePosition a) /\ is_Some (predictionPosition a)
  | deletion =>
      prediction a = []
      /\ is_Some (referencePosition a) /\ predictionPosition a = None
  | insertion =>
      reference a = []
      /\ referencePosition a = None /\ is_Some (predictionPosition a)
  end.

(** Entries of a trace that are not [correct]. *)
Definition errorCount (trace : list AlignmentResult) : nat :=
  length (filter (fun a => type a <> correct) trace).

(** The loop invariant with the shape of the entries, the detailed errors
    and the cost still to pay: the errors emitted so far plus the cell the
    loop stands on make up the corner cell. *)
Definition costInvariant (ref pred : list jsstring) (s : BacktrackState) : Prop :=
  traceInvariant ref pred s
  /\ Forall entryShape (bt_alignment s)
  /\ bt_detailedErrors s = omap errorOf (bt_alignment s)
  /\ errorCount (bt_alignment s) + editCost ref pred (bt_i s) (bt_j s)
     = editCost ref pred (length ref) (length pred).

(** The reference words a trace accounts for, read by tag: every entry but
    an insertion carries one; likewise the hypothesis words. *)
Definition referenceWords (trace : list AlignmentResult) : list jsstring :=
  omap (fun a => match type a with
                 | insertion => None
                 | _ => Some (reference a)
                 end) trace.

Definition predictionWords (trace : list AlignmentResult) : list jsstring :=
  omap (fun a => match type a with
                 | deletion => None
                 | _ => Some (prediction a)
                 end) trace.

(** A trace is an alignment of two token sequences when it accounts for
    exactly their words, in order, and tags [correct] only equal words. *)
Definition aligns (ref pred : list jsstring) (trace : list AlignmentResult)
  : Prop :=
  referenceWords trace = ref /\ predictionWords trace = pred
  /\ Forall (fun a => type a = correct -> reference a = prediction a) trace.

(** ** Error statistics and the textual rendering of [wer.ts] *)

(** One group of [getErrorStatistics]: [{ count, errors, rate }]. *)
Record ErrorGroup := {
  count : nat;
  errors : list ErrorDetail;
  rate : Q
}.

Record ErrorStatistics := {
  substitutionGroup : ErrorGroup;
  insertionGroup : ErrorGroup;
  deletionGroup : ErrorGroup;
  statisticsTotalErrors : nat;
  accuracy : Q
}.

Definition getErrorStatistics (werResult : WERResult) : ErrorStatistics :=
  let substitutionErrors :=
    filter (fun e => errorType e = substitution) (detailedErrors werResult) in
  let insertionErrors :=
    filter (fun e => errorType e = insertion) (detailedErrors werResult) in
  let deletionErrors :=
    filter (fun e => errorType e = deletion) (detailedErrors werResult) in
  {| substitutionGroup :=
       {| count := length substitutionErrors;
          errors := substitutionErrors;
          rate := substitutionRate werResult |};
     insertionGroup :=
       {| count := length insertionErrors;
          errors := insertionErrors;
          rate := insertionRate werResult |};
     deletionGroup :=
       {| count := length deletionErrors;
          errors := deletionErrors;
          rate := deletionRate werResult |};
     statisticsTotalErrors :=
       substitutions werResult + insertions werResult + deletions werResult;
     accuracy := (1 - wer werResult)%Q |}.

(** [String.prototype.padEnd(targetLength)]: spaces are appended up to the
    target length; a string already that long is returned as it is. *)
Definition padEnd (s : jsstring) (targetLength : nat) : jsstring :=
  s ++ replicate (targetLength - length s) SPACE.

(** [Array.prototype.join(separator)] on an array of strings. *)
Fixpoint join (separator : jsstring) (parts : list jsstring) : jsstring :=
  match parts with
  | [] => []
  | [part] => part
  | part :: rest => part ++ separator ++ join separator rest
  end.

(** The string of a tag, as [item.type] holds it. *)
Definition typeName (t : AlignmentType) : jsstring :=
  match t with
  | correct => js "correct"
  | substitution => js "substitution"
  | insertion => js "insertion"
  | deletion => js "deletion"
  end.

(** The [switch] of [formatAlignment].  The literal of [correct] holds the
    three code units U+00E2, U+0153 and U+201C in the source file (the bytes
    of the check mark U+2713 read as Windows-1252). *)
Definition statusOf (t : AlignmentType) : jsstring :=
  match t with
  | correct => [0xE2%N; 0x153%N; 0x201C%N]
  | substitution => js "S"
  | insertion => js "I"
  | deletion => js "D"
  end.

(** The three arrays [refLine], [predLine] and [statusLine] after the
    [forEach] of [formatAlignment]. *)
Definition formatColumns (alignment : list AlignmentResult)
  : list jsstring * list jsstring * list jsstring :=
  foldl (fun '(refLine, predLine, statusLine) item =>
           let maxLength :=
             length (reference item)
               `max` (length (prediction item)
                        `max` length (typeName (type item))) in
           (refLine ++ [padEnd (reference item) maxLength],
            predLine ++ [padEnd (prediction item) maxLength],
            statusLine ++ [padEnd (statusOf (type item)) maxLength]))
        ([], [], []) alignment.

Definition LF : N := 10%N.

Definition formatAlignment (alignment : list AlignmentResult) : jsstring :=
  let '(refLine, predLine, statusLine) := formatColumns alignment in
  js "REF: " ++ join (js " ") refLine ++ [LF]
  ++ js "HYP: " ++ join (js " ") predLine ++ [LF]
  ++ js "OPS: " ++ join (js " ") statusLine.

(** The width [formatAlignment] gives the column of an entry. *)
Definition columnWidth (item : AlignmentResult) : nat :=
  length (reference item)
    `max` (length (prediction item) `max` length (typeName (type item))).

(** The second half of [trim]: white space stripped at the end. *)
Definition trimEnd (s : jsstring) : jsstring := reverse (trimStart (reverse s)).

(** A word: not empty, no white space in it. *)
Definition isWord (word : jsstring) : Prop :=
  word <> [] /\ Forall (fun c => isWhiteSpace c = false) word.

(** ** The error tables of the page component *)

(** A [Map] with string keys, as the list of its entries in insertion
    order, which is the order [Map] iterates in. *)
Fixpoint mapGet {V} (entries : list (jsstring * V)) (key : jsstring) : option V :=
  match entries with
  | [] => None
  | (k, v) :: rest => if decide (k = key) then Some v else mapGet rest key
  end.

(** [Map.prototype.set]: the value of a key that is present is replaced
    where it stands, a new key goes to the end. *)
Fixpoint mapSet {V} (entries : list (jsstring * V)) (key : jsstring) (value : V)
  : list (jsstring * V) :=
  match entries with
  | [] => [(key, value)]
  | (k, v) :: rest =>
      if decide (k = key) then (k, value) :: rest
      else (k, v) :: mapSet rest key value
  end.

(** [Array.prototype.sort((a, b) => b.count - a.count)]: the sort is stable,
    so the result is the one arrangement by decreasing count that keeps
    entries of equal count in their order.  [insertByCount] puts an entry
    into a sorted list of entries that came after it. *)
Fixpoint insertByCount {A} (count : A -> nat) (x : A) (sorted : list A)
  : list A :=
  match sorted with
  | [] => [x]
  | y :: rest =>
      if count x <? count y then y :: insertByCount count x rest
      else x :: y :: rest
  end.

Definition sortByCount {A} (count : A -> nat) (l : list A) : list A :=
  foldr (insertByCount count) [] l.

Record WordCount := { word : jsstring; wordCount : nat }.

(** The body [getInsertions] and [getDeletions] share: the words are
    counted in a [Map<string, number>], whose entries are then sorted. *)
Definition countWords (words : list jsstring) : list WordCount :=
  let counts :=
    foldl (fun counts word =>
             mapSet counts word (default 0 (mapGet counts word) + 1))
      [] words in
  sortByCount wordCount
    ((fun '(word, count) => {| word := word; wordCount := count |})
       <$> counts).

(** [results.flatMap((r) => r.alignment.filter((a) => a.type === t))] *)
Definition entriesOfType (t : AlignmentType) (results : list IndexedResult)
  : list AlignmentResult :=
  results ≫= (fun r => filter (fun a => type a = t) (alignment (result r))).

Definition getInsertions (results : list IndexedResult) : list WordCount :=
  countWords (prediction <$> entriesOfType insertion results).

Definition getDeletions (results : list IndexedResult) : list WordCount :=
  countWords (reference <$> entriesOfType deletion results).

Record SubstitutionCount := {
  substitutedReference : jsstring;
  substitutedPrediction : jsstring;
  substitutionCount : nat
}.

(** The key [`${sub.reference} -> ${sub.prediction}`]. *)
Definition substitutionKey (sub : AlignmentResult) : jsstring :=
  reference sub ++ js " -> " ++ prediction sub.

Definition getSubstitutions (results : list IndexedResult)
  : list SubstitutionCount :=
  let substitutions := entriesOfType substitution results in
  let counts :=
    foldl (fun counts sub =>
             let key := substitutionKey sub in
             match mapGet counts key with
             | Some entry =>
                 mapSet counts key
                   {| substitutedReference := substitutedReference entry;
                      substitutedPrediction := substitutedPrediction entry;
                      substitutionCount := substitutionCount entry + 1 |}
             | None =>
                 mapSet counts key
                   {| substitutedReference := reference sub;
                      substitutedPrediction := prediction sub;
                      substitutionCount := 1 |}
             end)
      [] substitutions in
  sortByCount substitutionCount (snd <$> counts).

(** Occurrences of a word in a list of words. *)
Definition occurrences (w : jsstring) (words : list jsstring) : nat :=
  length (filter (fun w' => w' = w) words).

(** Counts in decreasing order. *)
Definition decreasing (counts : list nat) : Prop :=
  Sorted (fun a b => b <= a) counts.

(** A table of counted words is right for a list of words when it lists
    every word of the list once, with the number of its occurrences, the
    larger counts first. *)
Definition countsWords (table : list WordCount) (words : list jsstring)
  : Prop :=
  sum_list (wordCount <$> table) = length words
  /\ NoDup (word <$> table)
  /\ (forall wc, wc ∈ table ->
        wordCount wc = occurrences (word wc) words /\ 0 < wordCount wc)
  /\ (forall w, w ∈ words -> w ∈ word <$> table)
  /\ decreasing (wordCount <$> table).

(** The substitution entries counted under a key. *)
Definition withKey (key : jsstring) (subs : list AlignmentResult)
  : list AlignmentResult :=
  filter (fun sub => substitutionKey sub = key) subs.

(** The substitution entries with a given pair of words. *)
Definition withWords (r p : jsstring) (subs : list AlignmentResult)
  : list AlignmentResult :=
  filter (fun sub => reference sub = r /\ prediction sub = p) subs.

(** ** The CSV parser *)

(** The completion of a call that can [throw new Error(message)]. *)
Inductive Completion (A : Type) :=
| Returned (value : A)
| Threw (message : string).
Arguments Returned {A} value.
Arguments Threw {A} message.

Definition COMMA : N := 44%N.

(** [s.split(separator)] for a separator of one code unit: the pieces
    between its occurrences, empty ones included; [cur] is the piece being
    read. *)
Fixpoint splitOn (separator : N) (cur : jsstring) (s : jsstring)
  : list jsstring :=
  match s with
  | [] => [cur]
  | c :: s' =>
      if (c =? separator)%N then cur :: splitOn separator [] s'
      else splitOn separator (cur ++ [c]) s'
  end.

Fixpoint startsWith (s prefix : jsstring) : bool :=
  match prefix, s with
  | [], _ => true
  | _ :: _, [] => false
  | p :: prefix', c :: s' => (c =? p)%N && startsWith s' prefix'
  end.

(** [String.prototype.includes] *)
Fixpoint includes (s search : jsstring) : bool :=
  startsWith s search
  || match s with
     | [] => false
     | _ :: s' => includes s' search
     end.

(** [Array.prototype.findIndex]; [None] stands for [-1]. *)
Fixpoint findIndex {A} (test : A -> bool) (l : list A) : option nat :=
  match l with
  | [] => None
  | x :: l' => if test x then Some 0 else S <$> findIndex test l'
  end.

Section ParseCSV.
Variable toLowerCase : jsstring -> jsstring.

(** The body of the [for] loop over the data lines: a line with enough
    cells gives a row, any other line is skipped. *)
Definition parseLine (refIndex predIndex : nat) (line : jsstring)
  : option DataRow :=
  let row := splitOn COMMA [] line in
  if refIndex `max` predIndex <? length row
  then Some {| rowReference := trim (row !!! refIndex);
               rowPrediction := trim (row !!! predIndex) |}
  else None.

Definition parseCSV (content : jsstring) : Completion (list DataRow) :=
  let lines := splitOn LF [] (trim content) in
  if length lines <? 2
  then Threw "CSV must have at least a header row and one data row"
  else
    let header :=
      (fun h => toLowerCase (trim h)) <$> splitOn COMMA [] (lines !!! 0) in
    let refIndex :=
      findIndex (fun h => includes h (js "ref") || includes h (js "ground")
                          || includes h (js "truth")) header in
    let predIndex :=
      findIndex (fun h => includes h (js "pred") || includes h (js "hyp")
                          || includes h (js "hypothesis")) header in
    match refIndex, predIndex with
    | Some refIndex, Some predIndex =>
        Returned (omap (parseLine refIndex predIndex) (drop 1 lines))
    | _, _ =>
        Threw "CSV must contain columns for reference and prediction"
    end.
End ParseCSV.

(** Occurrences of a code unit in a string. *)
Definition countUnit (c : N) (s : jsstring) : nat :=
  length (filter (fun c' => c' = c) s).

(** A field as [parseCSV] returns it: trimmed, and free of the two
    separators. *)
Definition cleanField (field : jsstring) : Prop :=
  trim field = field /\ (COMMA ∉ field) /\ (LF ∉ field).

(** A CSV text of a header and two data lines, the second one too short. *)
Definition sampleCSV : jsstring :=
  js "reference,prediction" ++ [LF]
  ++ js " hello world , hello word " ++ [LF] ++ js "short".

(** * Properties *)

(** ** The table *)

Lemma foldl_seq_invariant {A} (f : A -> nat -> A) (P : nat -> A -> Prop)
    (len : nat) :
  forall start a,
    P start a ->
    (forall k x, start <= k < start + len -> P k x -> P (S k) (f x k)) ->
    P (start + len) (foldl f a (seq start len)).
Proof.
  induction len as [|len IH]; intros start a Ha Hstep; simpl.
  - by rewrite Nat.add_0_r.
  - rewrite <- Nat.add_succ_comm. apply IH.
    + apply Hstep; [lia | done].
    + intros k x Hk. apply Hstep. lia.
Qed.

Lemma hasShape_row m n dp i :
  hasShape m n dp -> i <= m -> length (dp !!! i) = S n.
Proof.
  intros [Hlen Hrows] Hi.
  apply (Forall_lookup_1 (fun row => length row = S n) dp i); [done|].
  apply list_lookup_lookup_total_lt. lia.
Qed.

Lemma hasShape_newTable m n : hasShape m n (newTable m n).
Proof.
  split; [apply length_replicate|].
  apply Forall_replicate, length_replicate.
Qed.

Lemma hasShape_dpSet m n dp i j v :
  hasShape m n dp -> hasShape m n (dpSet dp i j v).
Proof.
  intros [Hlen Hrows]. split; unfold dpSet.
  - by rewrite length_insert.
  - destruct (decide (i < length dp)) as [Hi|Hi].
    + apply Forall_insert; [done|]. rewrite length_insert.
      apply (Forall_lookup_1 (fun row => length row = S n) dp i); [done|].
      by apply list_lookup_lookup_total_lt.
    + rewrite list_insert_ge by lia. done.
Qed.

Lemma dpGet_dpSet_eq m n dp i j v :
  hasShape m n dp -> i <= m -> j <= n -> dpGet (dpSet dp i j v) i j = v.
Proof.
  intros Hs Hi Hj. unfold dpGet, dpSet.
  rewrite list_lookup_total_insert_eq by (destruct Hs; lia).
  apply list_lookup_total_insert_eq.
  rewrite (hasShape_row m n) by done. lia.
Qed.

Lemma dpGet_dpSet_ne dp i j v i' j' :
  i <> i' \/ j <> j' -> dpGet (dpSet dp i j v) i' j' = dpGet dp i' j'.
Proof.
  intros Hne. unfold dpGet, dpSet.
  destruct (decide (i = i')) as [<-|Hi].
  - destruct (decide (i < length dp)) as [Hlt|Hge].
    + rewrite list_lookup_total_insert_eq by done.
      apply list_lookup_total_insert_ne. intros ->. destruct Hne; done.
    + by rewrite list_insert_ge by lia.
  - by rewrite list_lookup_total_insert_ne.
Qed.

(** The loop [for (let i = 0; i <= m; i++) dp[i][0] = i]. *)
Lemma firstColumn_loop m n dp :
  hasShape m n dp ->
  let dp' := foldl (fun dp i => dpSet dp i 0 i) dp (seq 0 (S m)) in
  hasShape m n dp' /\ forall i, i <= m -> dpGet dp' i 0 = i.
Proof.
  intros Hshape dp'.
  cut (hasShape m n dp' /\ forall i, i < 0 + S m -> dpGet dp' i 0 = i).
  { intros [Hs Hcol]. split; [done|]. intros i Hi. apply Hcol. lia. }
  apply (foldl_seq_invariant _
           (fun k dp => hasShape m n dp
                        /\ forall i, i < k -> dpGet dp i 0 = i)).
  - split; [done | lia].
  - intros k t Hk [Hs Hget]. split; [by apply hasShape_dpSet|].
    intros i Hi. destruct (decide (i = k)) as [->|Hne].
    + apply (dpGet_dpSet_eq m n); [done | lia | lia].
    + rewrite dpGet_dpSet_ne by lia. apply Hget. lia.
Qed.

(** The loop [for (let j = 0; j <= n; j++) dp[0][j] = j], run after the
    previous one. *)
Lemma firstRow_loop m n dp :
  hasShape m n dp ->
  (forall i, i <= m -> dpGet dp i 0 = i) ->
  let dp' := foldl (fun dp j => dpSet dp 0 j j) dp (seq 0 (S n)) in
  hasShape m n dp'
  /\ (forall i, i <= m -> dpGet dp' i 0 = i)
  /\ (forall j, j <= n -> dpGet dp' 0 j = j).
Proof.
  intros Hshape Hcol dp'.
  cut (hasShape m n dp'
       /\ (forall i, 0 < i <= m -> dpGet dp' i 0 = i)
       /\ forall j, j < 0 + S n -> dpGet dp' 0 j = j).
  { intros (Hs & Hc & Hr). split; [done|]. split.
    - intros [|i] Hi; [apply Hr | apply Hc]; lia.
    - intros j Hj. apply Hr. lia. }
  apply (foldl_seq_invariant _
           (fun k dp => hasShape m n dp
                        /\ (forall i, 0 < i <= m -> dpGet dp i 0 = i)
                        /\ forall j, j < k -> dpGet dp 0 j = j)).
  - split; [done|]. split; [|lia]. intros i Hi. apply Hcol. lia.
  - intros k t Hk (Hs & Hc & Hr). split; [by apply hasShape_dpSet|]. split.
    + intros i Hi. rewrite dpGet_dpSet_ne by lia. by apply Hc.
    + intros j Hj. destruct (decide (j = k)) as [->|Hne].
      * apply (dpGet_dpSet_eq m n); [done | lia | lia].
      * rewrite dpGet_dpSet_ne by lia. apply Hr. lia.
Qed.

Section CostMatrix.
Variables ref pred : list jsstring.

Lemma editCost_0_r i : editCost ref pred i 0 = i.
Proof. by destruct i. Qed.

Lemma editCost_S_S i j :
  editCost ref pred (S i) (S j) =
  if sameWord ref pred (S i) (S j) then editCost ref pred i j
  else (editCost ref pred i j + 1)
         `min` ((editCost ref pred i (S j) + 1)
                  `min` (editCost ref pred (S i) j + 1)).
Proof. reflexivity. Qed.

(** One pass of the inner fill loop extends the filled region by a cell. *)
Lemma filledUpTo_fillCell r c dp :
  1 <= r <= length ref -> 1 <= c <= length pred ->
  filledUpTo ref pred r c dp ->
  filledUpTo ref pred r (S c) (fillCell ref pred r dp c).
Proof.
  intros Hr Hc [Hs Hget].
  assert (Hshape : hasShape (length ref) (length pred)
                     (fillCell ref pred r dp c)).
  { unfold fillCell.
    destruct (sameWord ref pred r c); by apply hasShape_dpSet. }
  split; [done|]. intros i j Hi Hj Hreg.
  destruct (decide (i = r /\ j = c)) as [[-> ->]|Hne].
  - destruct r as [|r]; [lia|]. destruct c as [|c]; [lia|].
    rewrite editCost_S_S. unfold fillCell.
    replace (S r - 1) with r by lia. replace (S c - 1) with c by lia.
    destruct (sameWord ref pred (S r) (S c)).
    + rewrite (dpGet_dpSet_eq (length ref) (length pred)) by done.
      apply Hget; lia.
    + rewrite (dpGet_dpSet_eq (length ref) (length pred)) by done.
      rewrite !Hget by lia. done.
  - unfold fillCell.
    destruct (sameWord ref pred r c);
      (rewrite dpGet_dpSet_ne by lia; apply Hget; lia).
Qed.

Lemma filledUpTo_costMatrix :
  filledUpTo ref pred (S (length ref)) 1 (costMatrix ref pred).
Proof.
  unfold costMatrix. cbv zeta.
  replace (S (length ref)) with (1 + length ref) by lia.
  apply (foldl_seq_invariant _ (fun r dp => filledUpTo ref pred r 1 dp)).
  - destruct (firstColumn_loop (length ref) (length pred) _
                (hasShape_newTable (length ref) (length pred)))
      as [Hs Hcol].
    destruct (firstRow_loop (length ref) (length pred) _ Hs Hcol)
      as (Hs' & Hc & Hr).
    split; [done|]. intros i j Hi Hj Hreg.
    destruct i as [|i]; [by apply Hr|].
    destruct j as [|j]; [|lia]. rewrite editCost_0_r. by apply Hc.
  - intros r dp Hr Hfilled.
    assert (Hrow : filledUpTo ref pred r (1 + length pred)
                     (foldl (fillCell ref pred r) dp (seq 1 (length pred)))).
    { apply (foldl_seq_invariant _ (fun c dp => filledUpTo ref pred r c dp));
        [done|].
      intros c dp' Hc. apply filledUpTo_fillCell; lia. }
    destruct Hrow as [Hs Hget]. split; [done|].
    intros i j Hi Hj Hreg. apply Hget; lia.
Qed.

(** Every cell of the table the source builds holds the recurrence. *)
Lemma costMatrix_editCost i j :
  i <= length ref -> j <= length pred ->
  dpGet (costMatrix ref pred) i j = editCost ref pred i j.
Proof.
  intros Hi Hj. destruct filledUpTo_costMatrix as [_ Hget].
  apply Hget; lia.
Qed.

Lemma costMatrix_shape :
  hasShape (length ref) (length pred) (costMatrix ref pred).
Proof. apply filledUpTo_costMatrix. Qed.
End CostMatrix.

(** ** The recurrence *)

Section EditCost.
Variables ref pred : list jsstring.

Lemma editCost_upper i j : editCost ref pred i j <= i `max` j.
Proof.
  revert j. induction i as [|i IHi]; intros j; [simpl; lia|].
  induction j as [|j IHj]; [simpl; lia|].
  rewrite editCost_S_S. specialize (IHi j).
  destruct (sameWord ref pred (S i) (S j)); lia.
Qed.

Lemma editCost_lower i j : i - j <= editCost ref pred i j /\
                           j - i <= editCost ref pred i j.
Proof.
  revert j. induction i as [|i IHi]; intros j; [simpl; lia|].
  induction j as [|j IHj]; [simpl; lia|].
  rewrite editCost_S_S.
  pose proof (IHi j). pose proof (IHi (S j)).
  destruct (sameWord ref pred (S i) (S j)); lia.
Qed.

(** With no equal pair of words anywhere, the cost of two prefixes is the
    length of the longer one. *)
Lemma editCost_all_differ :
  (forall i j, 0 < i <= length ref -> 0 < j <= length pred ->
               sameWord ref pred i j = false) ->
  forall i j, i <= length ref -> j <= length pred ->
              editCost ref pred i j = i `max` j.
Proof.
  intros Hdiff i. induction i as [|i IHi]; intros j Hi Hj; [simpl; lia|].
  induction j as [|j IHj]; [simpl; lia|].
  rewrite editCost_S_S, Hdiff by lia.
  rewrite IHi, IHi, IHj by lia. lia.
Qed.
End EditCost.

(** ** The backtracking loop *)

Lemma drop_indexed (words : list jsstring) i :
  0 < i <= length words ->
  drop (i - 1) (indexed words)
  = ((Z.of_nat i - 1)%Z, words !!! (i - 1)) :: drop i (indexed words).
Proof.
  intros Hi. destruct i as [|i]; [lia|].
  replace (S i - 1) with i by lia.
  apply drop_S. unfold indexed. rewrite list_lookup_imap.
  rewrite list_lookup_lookup_total_lt by lia. simpl.
  do 2 f_equal. lia.
Qed.

Section Backtrack.
Variables ref pred : list jsstring.

Lemma backtrackStep_decreases dp s s' :
  backtrackStep ref pred dp s = Continue s' ->
  bt_i s' + bt_j s' < bt_i s + bt_j s.
Proof.
  unfold backtrackStep. destruct s as [i j rp pp A E]; simpl.
  destruct i, j; simpl; repeat case_match; intros [= <-]; simpl; lia.
Qed.

Lemma backtrackStep_exit dp s :
  backtrackStep ref pred dp s = LoopExit -> bt_i s = 0 /\ bt_j s = 0.
Proof.
  unfold backtrackStep. destruct s as [i j rp pp A E]; simpl.
  destruct i, j; simpl; repeat case_match; done.
Qed.

Lemma backtrack_invariant (P : BacktrackState -> Prop) dp :
  (forall s, P s ->
     match backtrackStep ref pred dp s with
     | Continue s' => P s'
     | LoopExit => True
     | FallbackBreak => False
     end) ->
  forall budget s,
    P s -> bt_i s + bt_j s < budget ->
    exists s', backtrack ref pred dp budget s = Some (ConditionFalse, s')
               /\ P s' /\ bt_i s' = 0 /\ bt_j s' = 0.
Proof.
  intros Hstep budget.
  induction budget as [|budget IH]; intros s HP Hlt; [lia|].
  simpl. specialize (Hstep s HP).
  destruct (backtrackStep ref pred dp s) as [s'| |] eqn:Hs; [ | | done].
  - apply IH; [done|]. apply backtrackStep_decreases in Hs. lia.
  - exists s. by destruct (backtrackStep_exit _ _ Hs).
Qed.

Lemma traceInvariant_step s :
  traceInvariant ref pred s ->
  match backtrackStep ref pred (costMatrix ref pred) s with
  | Continue s' => traceInvariant ref pred s'
  | LoopExit => True
  | FallbackBreak => False
  end.
Proof.
  destruct s as [i j rp pp A E].
  intros (Hi & Hj & Hrp & Hpp & HA & HB); simpl in *.
  unfold backtrackStep; simpl.
  destruct (decide (i = 0)) as [->|Hi0];
    destruct (decide (j = 0)) as [->|Hj0]; simpl.
  - done.
  - replace (0 <? j) with true by (symmetry; apply Nat.ltb_lt; lia). simpl.
    rewrite !costMatrix_editCost by lia. simpl.
    replace (j =? j - 1 + 1) with true by (symmetry; apply Nat.eqb_eq; lia).
    unfold traceInvariant; simpl.
    rewrite HB, (drop_indexed pred j) by lia. subst pp.
    repeat split; try done; try lia.
  - replace (0 <? i) with true by (symmetry; apply Nat.ltb_lt; lia). simpl.
    rewrite !costMatrix_editCost by lia. rewrite !editCost_0_r.
    replace (i =? i - 1 + 1) with true by (symmetry; apply Nat.eqb_eq; lia).
    unfold traceInvariant; simpl.
    rewrite HA, (drop_indexed ref i) by lia. subst rp.
    repeat split; try done; try lia.
  - replace (0 <? i) with true by (symmetry; apply Nat.ltb_lt; lia).
    replace (0 <? j) with true by (symmetry; apply Nat.ltb_lt; lia). simpl.
    rewrite !costMatrix_editCost by lia.
    destruct (sameWord ref pred i j) eqn:Hsame.
    + unfold traceInvariant; simpl.
      rewrite HA, HB, (drop_indexed ref i), (drop_indexed pred j) by lia.
      subst rp pp. repeat split; try done; try lia.
    + assert (Hcost : editCost ref pred i j =
                (editCost ref pred (i - 1) (j - 1) + 1)
                  `min` ((editCost ref pred (i - 1) j + 1)
                           `min` (editCost ref pred i (j - 1) + 1))).
      { destruct i as [|i]; [done|]. destruct j as [|j]; [done|].
        rewrite editCost_S_S, Hsame.
        by replace (S i - 1) with i by lia; replace (S j - 1) with j by lia. }
      destruct (Nat.eqb_spec (editCost ref pred i j)
                  (editCost ref pred (i - 1) (j - 1) + 1)) as [E1|E1]; simpl.
      { unfold traceInvariant; simpl.
        rewrite HA, HB, (drop_indexed ref i), (drop_indexed pred j) by lia.
        subst rp pp. repeat split; try done; try lia. }
      destruct (Nat.eqb_spec (editCost ref pred i j)
                  (editCost ref pred (i - 1) j + 1)) as [E2|E2]; simpl.
      { unfold traceInvariant; simpl.
        rewrite HA, HB, (drop_indexed ref i) by lia.
        subst rp pp. repeat split; try done; try lia. }
      destruct (Nat.eqb_spec (editCost ref pred i j)
                  (editCost ref pred i (j - 1) + 1)) as [E3|E3]; simpl.
      { unfold traceInvariant; simpl.
        rewrite HA, HB, (drop_indexed pred j) by lia.
        subst rp pp. repeat split; try done; try lia. }
      lia.
Qed.
End Backtrack.

Section BacktrackOnCostMatrix.
Variables ref pred : list jsstring.

Lemma backtrackStep_progress s :
  bt_i s <= length ref -> bt_j s <= length pred ->
  backtrackStep ref pred (costMatrix ref pred) s <> FallbackBreak.
Proof.
  destruct s as [i j rp pp A E]; simpl. intros Hi Hj.
  unfold backtrackStep; cbn [bt_i bt_j].
  rewrite !costMatrix_editCost by lia.
  destruct i as [|i]; destruct j as [|j];
    change (0 <? 0) with false; try change (0 <? S i) with true;
    try change (0 <? S j) with true; cbn [negb orb andb]; [done | | |].
  - cbn [editCost]. rewrite Nat.sub_succ, Nat.sub_0_r.
    by rewrite (proj2 (Nat.eqb_eq (S j) (j + 1))) by lia.
  - rewrite !editCost_0_r, Nat.sub_succ, Nat.sub_0_r.
    by rewrite (proj2 (Nat.eqb_eq (S i) (i + 1))) by lia.
  - rewrite !Nat.sub_succ, !Nat.sub_0_r.
    destruct (sameWord ref pred (S i) (S j)) eqn:Hsame; [done|].
    rewrite editCost_S_S, Hsame.
    repeat match goal with
           | |- context [?a =? ?b] => destruct (Nat.eqb_spec a b); [done|]
           end.
    lia.
Qed.

Lemma backtrack_more_budget dp budget budget' s r :
  backtrack ref pred dp budget s = Some r -> budget <= budget' ->
  backtrack ref pred dp budget' s = Some r.
Proof.
  revert budget' s. induction budget as [|budget IH]; intros budget' s; [done|].
  intros Hrun Hle. destruct budget' as [|budget']; [lia|].
  simpl in *. destruct (backtrackStep ref pred dp s); [|done..].
  apply IH; [done | lia].
Qed.

Lemma traceInvariant_initialState :
  traceInvariant ref pred (initialState ref pred).
Proof.
  unfold traceInvariant, initialState; simpl.
  rewrite !drop_ge by (unfold indexed; rewrite length_imap; lia).
  done.
Qed.

(** The loop over the cost matrix leaves by its condition, within the
    budget, with both indices at [0] and a trace that covers both token
    arrays. *)
Lemma backtrack_costMatrix :
  exists s,
    backtrack ref pred (costMatrix ref pred)
      (S (length ref + length pred)) (initialState ref pred)
    = Some (ConditionFalse, s)
    /\ bt_i s = 0 /\ bt_j s = 0
    /\ referenceSide (bt_alignment s) = indexed ref
    /\ predictionSide (bt_alignment s) = indexed pred.
Proof.
  destruct (backtrack_invariant ref pred (traceInvariant ref pred)
              (costMatrix ref pred) (traceInvariant_step ref pred)
              (S (length ref + length pred)) (initialState ref pred))
    as (s & Hrun & Hinv & Hi & Hj).
  - apply traceInvariant_initialState.
  - simpl. lia.
  - exists s. destruct Hinv as (_ & _ & _ & _ & HA & HB).
    rewrite Hi in HA. rewrite Hj in HB. done.
Qed.

Lemma alignWordsWithPositions_sides :
  exists trace errors,
    alignWordsWithPositions ref pred = Some (trace, errors)
    /\ referenceSide trace = indexed ref
    /\ predictionSide trace = indexed pred.
Proof.
  destruct backtrack_costMatrix as (s & Hrun & _ & _ & HA & HB).
  exists (bt_alignment s), (bt_detailedErrors s).
  unfold alignWordsWithPositions. by rewrite Hrun.
Qed.

(** The budget is never used up: the aligner returns for every input. *)
Lemma alignWordsWithPositions_returns :
  is_Some (alignWordsWithPositions ref pred).
Proof. destruct alignWordsWithPositions_sides as (? & ? & -> & _). done. Qed.
End BacktrackOnCostMatrix.

Lemma length_referenceSide trace :
  length (referenceSide trace)
  = length (filter (fun a => is_Some (referencePosition a)) trace).
Proof.
  induction trace as [|a trace IH]; [done|].
  unfold referenceSide in *. rewrite filter_cons. simpl.
  destruct (referencePosition a); simpl; [f_equal|]; exact IH.
Qed.

Lemma length_predictionSide trace :
  length (predictionSide trace)
  = length (filter (fun a => is_Some (predictionPosition a)) trace).
Proof.
  induction trace as [|a trace IH]; [done|].
  unfold predictionSide in *. rewrite filter_cons. simpl.
  destruct (predictionPosition a); simpl; [f_equal|]; exact IH.
Qed.

Lemma length_indexed words : length (indexed words) = length words.
Proof. apply length_imap. Qed.

Lemma elem_of_indexed words p w :
  (p, w) ∈ indexed words ->
  (0 <= p)%Z /\ words !! Z.to_nat p = Some w.
Proof.
  intros Hin. apply list_elem_of_lookup in Hin as [k Hk].
  unfold indexed in Hk. rewrite list_lookup_imap in Hk.
  destruct (words !! k) as [w'|] eqn:Hw; simplify_eq/=.
  split; [lia|]. by rewrite Nat2Z.id.
Qed.

Lemma referenceSide_positions trace words :
  referenceSide trace = indexed words ->
  Forall (fun a => forall p, referencePosition a = Some p ->
            (0 <= p)%Z /\ words !! Z.to_nat p = Some (reference a)) trace.
Proof.
  intros Hside. apply Forall_forall. intros a Ha p Hp.
  apply elem_of_indexed. rewrite <- Hside.
  unfold referenceSide. apply list_elem_of_omap. exists a.
  split; [done|]. by rewrite Hp.
Qed.

Lemma predictionSide_positions trace words :
  predictionSide trace = indexed words ->
  Forall (fun a => forall p, predictionPosition a = Some p ->
            (0 <= p)%Z /\ words !! Z.to_nat p = Some (prediction a)) trace.
Proof.
  intros Hside. apply Forall_forall. intros a Ha p Hp.
  apply elem_of_indexed. rewrite <- Hside.
  unfold predictionSide. apply list_elem_of_omap. exists a.
  split; [done|]. by rewrite Hp.
Qed.

(** ** Walks down the diagonal *)

Section Diagonal.
Variables ref pred : list jsstring.

Lemma sameWord_refl (X : list jsstring) i : sameWord X X i i = true.
Proof. unfold sameWord. by apply bool_decide_eq_true. Qed.

Lemma sameWord_differ i j :
  (forall r p, r ∈ ref -> p ∈ pred -> r <> p) ->
  0 < i <= length ref -> 0 < j <= length pred ->
  sameWord ref pred i j = false.
Proof.
  intros Hdiff Hi Hj. unfold sameWord. apply bool_decide_eq_false.
  rewrite (list_lookup_lookup_total_lt ref) by lia.
  rewrite (list_lookup_lookup_total_lt pred) by lia.
  intros [= Heq]. eapply Hdiff; [| |exact Heq].
  - apply list_elem_of_lookup_total_2. lia.
  - apply list_elem_of_lookup_total_2. lia.
Qed.

Lemma diagonalInvariant_identity (X : list jsstring) dp s :
  diagonalInvariant correct (length X) s ->
  match backtrackStep X X dp s with
  | Continue s' => diagonalInvariant correct (length X) s'
  | LoopExit => True
  | FallbackBreak => False
  end.
Proof.
  destruct s as [i j rp pp A E]. intros (Hij & Hlen & Hall & Herr).
  simpl in *. subst j. unfold backtrackStep; cbn [bt_i bt_j].
  destruct i as [|i]; [done|].
  change (0 <? S i) with true. cbn [negb orb andb].
  rewrite sameWord_refl.
  repeat split; simpl; [lia | by constructor | auto].
Qed.

Lemma diagonalInvariant_all_differ s :
  length ref = length pred ->
  (forall r p, r ∈ ref -> p ∈ pred -> r <> p) ->
  diagonalInvariant substitution (length ref) s ->
  match backtrackStep ref pred (costMatrix ref pred) s with
  | Continue s' => diagonalInvariant substitution (length ref) s'
  | LoopExit => True
  | FallbackBreak => False
  end.
Proof.
  intros Hsame Hdiff. destruct s as [i j rp pp A E].
  intros (Hij & Hlen & Hall & Herr). simpl in *. subst j.
  unfold backtrackStep; cbn [bt_i bt_j].
  destruct i as [|i]; [done|].
  change (0 <? S i) with true. cbn [negb orb andb].
  rewrite sameWord_differ by (done || lia).
  rewrite !costMatrix_editCost by lia.
  rewrite !(editCost_all_differ ref pred) by
    (lia || (intros; apply sameWord_differ; done)).
  rewrite (proj2 (Nat.eqb_eq _ _)) by lia.
  repeat split; simpl; [lia | by constructor | done].
Qed.
End Diagonal.

(** ** Tallying a trace *)

Lemma foldl_tally trace : forall s i d,
  foldl tally (s, i, d) trace
  = (s + countType substitution trace, i + countType insertion trace,
     d + countType deletion trace).
Proof.
  unfold countType.
  induction trace as [|a trace IH]; intros s i d; simpl.
  - by rewrite !Nat.add_0_r.
  - rewrite !filter_cons. destruct (type a) eqn:Ht; simpl;
      rewrite IH; repeat case_decide; try done; simpl;
      repeat match goal with |- (_, _) = (_, _) => f_equal end; lia.
Qed.

Lemma countType_errors trace :
  countType substitution trace + countType insertion trace
  + countType deletion trace
  = length (filter (fun a => type a <> correct) trace).
Proof.
  unfold countType. induction trace as [|a trace IH]; [done|].
  rewrite !filter_cons.
  destruct (type a) eqn:Ht; repeat case_decide; try done; simpl; lia.
Qed.

Lemma countType_Forall t t' trace :
  Forall (fun a => type a = t) trace -> t <> t' -> countType t' trace = 0.
Proof.
  intros Hall Hne. unfold countType.
  induction Hall as [|a trace Ha _ IH]; [done|].
  rewrite filter_cons. rewrite decide_False by congruence. done.
Qed.

Lemma reportOfWords_fields refWords predWords trace errors :
  alignWordsWithPositions refWords predWords = Some (trace, errors) ->
  reportOfWords refWords predWords =
    let substitutions := countType substitution trace in
    let insertions := countType insertion trace in
    let deletions := countType deletion trace in
    let totalWords := length refWords in
    Some {|
      wer :=
        if 0 <? totalWords
        then (num (substitutions + insertions + deletions) / num totalWords)%Q
        else 0%Q;
      substitutions := substitutions;
      insertions := insertions;
      deletions := deletions;
      totalWords := totalWords;
      substitutionRate :=
        if 0 <? totalWords then (num substitutions / num totalWords)%Q
        else 0%Q;
      insertionRate :=
        if 0 <? totalWords then (num insertions / num totalWords)%Q else 0%Q;
      deletionRate :=
        if 0 <? totalWords then (num deletions / num totalWords)%Q else 0%Q;
      alignment := trace;
      detailedErrors := errors |}.
Proof.
  intros Halign. unfold reportOfWords. rewrite Halign.
  by rewrite foldl_tally.
Qed.

(** ** Tokenisation *)

Lemma tokenize_wordsFrom text : forall cur inRun,
  (inRun = true -> cur = []) ->
  filter (fun word => 0 < length word) (splitWhiteSpace cur inRun text)
  = wordsFrom cur text.
Proof.
  induction text as [|c text IH]; intros cur inRun Hrun; simpl.
  - destruct cur; [done|]. rewrite filter_cons, decide_True by (simpl; lia).
    done.
  - destruct (isWhiteSpace c).
    + destruct inRun.
      * rewrite Hrun by done. by apply IH.
      * rewrite filter_cons. destruct cur as [|c' cur].
        -- rewrite decide_False by (simpl; lia). by apply IH.
        -- rewrite decide_True by (simpl; lia). f_equal. by apply IH.
    + by apply IH.
Qed.

Lemma wordsFrom_well_formed text : forall cur,
  Forall (fun c => isWhiteSpace c = false) cur ->
  Forall (fun word => word <> []
                      /\ Forall (fun c => isWhiteSpace c = false) word)
    (wordsFrom cur text).
Proof.
  induction text as [|c text IH]; intros cur Hcur; simpl.
  - destruct cur; [constructor|]. constructor; [done|constructor].
  - destruct (isWhiteSpace c) eqn:Hc.
    + destruct cur; [by apply IH|].
      constructor; [done|]. by apply IH.
    + apply IH. apply Forall_app. split; [done|]. by constructor.
Qed.

(** ** Batch sums *)

Lemma foldl_add_sum_list {A} (f : A -> nat) (l : list A) : forall a,
  foldl (fun sum r => sum + f r) a l = a + sum_list (f <$> l).
Proof.
  induction l as [|x l IH]; intros a; [simpl; lia|].
  rewrite fmap_cons. cbn [foldl sum_list]. rewrite IH. unfold id. lia.
Qed.

Lemma wordsFrom_manyWords k :
  wordsFrom [] (manyWords k) = replicate k (js "a").
Proof.
  unfold manyWords. induction k as [|k IH]; [done|].
  simpl. by rewrite IH.
Qed.

Lemma replacePunctuation_lookup s k c :
  s !! k = Some c ->
  replacePunctuation s !! k = Some (if isKept c then c else SPACE).
Proof.
  intros Hk. unfold replacePunctuation.
  change (map ?f s) with (f <$> s). rewrite list_lookup_fmap, Hk. simpl.
  f_equal. unfold isPunctuation, isKept.
  destruct (isWordChar c), (isWhiteSpace c), (inRange 192 591 c),
    (inRange 7680 7935 c); done.
Qed.

(** ** The report *)

Lemma calculateWER_reportOfWords toLowerCase reference prediction options :
  calculateWER toLowerCase reference prediction options
  = reportOfWords (wordsOf toLowerCase reference options)
      (wordsOf toLowerCase prediction options).
Proof. by destruct options. Qed.

(** [calculateWER] returns a report for every input. *)
Lemma calculateWER_returns toLowerCase reference prediction options :
  exists r,
    calculateWER toLowerCase reference prediction options = Some r
    /\ totalWords r = length (wordsOf toLowerCase reference options).
Proof.
  rewrite calculateWER_reportOfWords.
  destruct (alignWordsWithPositions_sides
              (wordsOf toLowerCase reference options)
              (wordsOf toLowerCase prediction options))
    as (trace & errors & Halign & _).
  rewrite (reportOfWords_fields _ _ _ _ Halign). cbv zeta.
  eexists. split; reflexivity.
Qed.

(** ** The properties of the specification *)

(** C1 (rate consistency).  For all input strings and options (absent or
    given), [calculateWER] returns a report in which the three error counts
    add up to the number of alignment entries not tagged [correct], [wer] is
    the sum of the three counts divided by [totalWords], or [0] when
    [totalWords] is [0], and each of [substitutionRate], [insertionRate] and
    [deletionRate] is its count divided by [totalWords] under the same
    guard. *)
Theorem calculateWER_rate_consistency
    (toLowerCase : jsstring -> jsstring) (reference prediction : jsstring)
    (preprocessOptions : option PreprocessOptions) :
  exists r,
    calculateWER toLowerCase reference prediction preprocessOptions = Some r
    /\ substitutions r + insertions r + deletions r
       = length (filter (fun a => type a <> correct) (alignment r))
    /\ wer r = (if decide (totalWords r = 0%nat) then 0
                else num (substitutions r + insertions r + deletions r)
                     / num (totalWords r))%Q
    /\ substitutionRate r = (if decide (totalWords r = 0%nat) then 0
                             else num (substitutions r) / num (totalWords r))%Q
    /\ insertionRate r = (if decide (totalWords r = 0%nat) then 0
                          else num (insertions r) / num (totalWords r))%Q
    /\ deletionRate r = (if decide (totalWords r = 0%nat) then 0
                         else num (deletions r) / num (totalWords r))%Q.
Proof.
  rewrite calculateWER_reportOfWords.
  set (refWords := wordsOf toLowerCase reference preprocessOptions).
  set (predWords := wordsOf toLowerCase prediction preprocessOptions).
  destruct (alignWordsWithPositions_sides refWords predWords)
    as (trace & errors & Halign & _).
  rewrite (reportOfWords_fields _ _ _ _ Halign). cbv zeta.
  eexists. split; [reflexivity|]. cbn [substitutions insertions deletions
    totalWords wer substitutionRate insertionRate deletionRate alignment].
  split; [apply countType_errors|].
  destruct (length refWords) as [|k]; done.
Qed.

(** C2 (identity).  Aligning a token sequence [X] against itself gives a
    trace of exactly [|X|] entries, every one tagged [correct], no detailed
    error, and a report whose [wer] is [0]. *)
Theorem identity_alignment (X : list jsstring) :
  exists trace r,
    alignWordsWithPositions X X = Some (trace, [])
    /\ Forall (fun a => type a = correct) trace
    /\ length trace = length X
    /\ reportOfWords X X = Some r
    /\ alignment r = trace
    /\ (wer r == 0)%Q.
Proof.
  destruct (backtrack_invariant X X (diagonalInvariant correct (length X))
              (costMatrix X X)
              (diagonalInvariant_identity X (costMatrix X X))
              (S (length X + length X)) (initialState X X))
    as (s & Hrun & (_ & Hlen & Hall & Herr) & Hi & _).
  - repeat split; simpl; auto.
  - simpl. lia.
  - assert (Halign : alignWordsWithPositions X X = Some (bt_alignment s, [])).
    { unfold alignWordsWithPositions. rewrite Hrun, Herr; done. }
    exists (bt_alignment s). eexists.
    split; [done|]. split; [done|]. split; [lia|].
    rewrite (reportOfWords_fields _ _ _ _ Halign). cbv zeta.
    split; [reflexivity|]. split; [reflexivity|]. cbn [wer].
    rewrite !(countType_Forall correct) by done.
    destruct (0 <? length X); reflexivity.
Qed.

(** C3 (full mismatch).  When the two token sequences have the same length
    and no reference token occurs in the hypothesis, the trace has one
    entry per token pair and every entry is a substitution: no insertion and
    no deletion is emitted. *)
Theorem full_mismatch_all_substitutions (ref pred : list jsstring) :
  length ref = length pred ->
  Forall (fun r => r ∉ pred) ref ->
  exists trace errors,
    alignWordsWithPositions ref pred = Some (trace, errors)
    /\ Forall (fun a => type a = substitution) trace
    /\ length trace = length ref
    /\ countType insertion trace = 0
    /\ countType deletion trace = 0.
Proof.
  intros Hlen Hdiff.
  assert (Hdiff' : forall r p, r ∈ ref -> p ∈ pred -> r <> p).
  { intros r p Hr Hp ->. rewrite Forall_forall in Hdiff. by apply (Hdiff p). }
  destruct (backtrack_invariant ref pred
              (diagonalInvariant substitution (length ref))
              (costMatrix ref pred)
              (fun s => diagonalInvariant_all_differ ref pred s Hlen Hdiff')
              (S (length ref + length pred)) (initialState ref pred))
    as (s & Hrun & (_ & Hk & Hall & _) & Hi & _).
  - repeat split; simpl; auto.
  - simpl. lia.
  - exists (bt_alignment s), (bt_detailedErrors s).
    unfold alignWordsWithPositions. rewrite Hrun.
    split; [done|]. split; [done|]. split; [lia|].
    split; by apply (countType_Forall substitution).
Qed.

(** C4 (cost bounds).  In the cost matrix of two token sequences of lengths
    [m] and [n] the corner cell lies between [|m - n|] and [max m n], the
    first column holds [cell[i][0] = i] and the first row [cell[0][j] = j]. *)
Theorem costMatrix_bounds (ref pred : list jsstring) :
  let m := length ref in
  let n := length pred in
  let cell := dpGet (costMatrix ref pred) in
  (Z.abs (Z.of_nat m - Z.of_nat n) <= Z.of_nat (cell m n))%Z
  /\ cell m n <= m `max` n
  /\ (forall i, i <= m -> cell i 0 = i)
  /\ (forall j, j <= n -> cell 0 j = j).
Proof.
  intros m n cell. subst cell.
  rewrite costMatrix_editCost by done.
  pose proof (editCost_upper ref pred m n).
  pose proof (editCost_lower ref pred m n).
  split; [lia|]. split; [done|]. split.
  - intros i Hi. rewrite costMatrix_editCost by (done || lia).
    apply editCost_0_r.
  - intros j Hj. rewrite costMatrix_editCost by (done || lia). done.
Qed.

(** C5 (token counts and positions).  The trace has as many entries with a
    reference position as there are reference tokens and as many with a
    prediction position as there are hypothesis tokens; every recorded
    position is the zero-based index, in its own input sequence, of the
    token the entry carries; read in order, the two sides of the trace are
    the two input sequences with their indices. *)
Theorem alignment_positions (ref pred : list jsstring) :
  exists trace errors,
    alignWordsWithPositions ref pred = Some (trace, errors)
    /\ length (filter (fun a => is_Some (referencePosition a)) trace)
       = length ref
    /\ length (filter (fun a => is_Some (predictionPosition a)) trace)
       = length pred
    /\ Forall (fun a => forall p, referencePosition a = Some p ->
                 (0 <= p)%Z /\ ref !! Z.to_nat p = Some (reference a)) trace
    /\ Forall (fun a => forall p, predictionPosition a = Some p ->
                 (0 <= p)%Z /\ pred !! Z.to_nat p = Some (prediction a)) trace
    /\ referenceSide trace = indexed ref
    /\ predictionSide trace = indexed pred.
Proof.
  destruct (alignWordsWithPositions_sides ref pred)
    as (trace & errors & Halign & HA & HB).
  exists trace, errors. split; [done|].
  rewrite <- length_referenceSide, <- length_predictionSide, HA, HB.
  rewrite !length_indexed.
  split; [done|]. split; [done|].
  split; [by apply referenceSide_positions|].
  split; [by apply predictionSide_positions|]. done.
Qed.

(** C10 (the fallback branch).  Over the cost matrix built by the dynamic
    program, no state whose indices lie in the table takes the final [else]
    of the backtracking loop; the loop started at [(m, n)] never leaves by
    that [break], whatever the number of iterations allowed; it leaves by its
    condition with [i = 0] and [j = 0], and the trace then holds every token
    of both sequences, in order, with its index. *)
Theorem fallback_unreachable (ref pred : list jsstring) :
  (forall s, bt_i s <= length ref -> bt_j s <= length pred ->
     backtrackStep ref pred (costMatrix ref pred) s <> FallbackBreak)
  /\ (forall budget s,
        backtrack ref pred (costMatrix ref pred) budget (initialState ref pred)
        <> Some (Broke, s))
  /\ exists s,
       backtrack ref pred (costMatrix ref pred)
         (S (length ref + length pred)) (initialState ref pred)
       = Some (ConditionFalse, s)
       /\ bt_i s = 0 /\ bt_j s = 0
       /\ referenceSide (bt_alignment s) = indexed ref
       /\ predictionSide (bt_alignment s) = indexed pred.
Proof.
  split; [apply backtrackStep_progress|].
  split; [|apply backtrack_costMatrix].
  intros budget s Hbroke.
  destruct (backtrack_costMatrix ref pred) as (s' & Hrun & _).
  pose proof (backtrack_more_budget ref pred _ _
                (budget `max` S (length ref + length pred)) _ _ Hbroke
                (Nat.le_max_l _ _)) as H1.
  pose proof (backtrack_more_budget ref pred _ _
                (budget `max` S (length ref + length pred)) _ _ Hrun
                (Nat.le_max_r _ _)) as H2.
  congruence.
Qed.

(** C6 (punctuation becomes a space).  With [removePunctuation] on, the
    normaliser maps the text (lower-cased first when [lowercase] is on) code
    unit by code unit: a code unit that is a word character (ASCII letter,
    digit, underscore, or in U+00C0-U+024F or U+1E00-U+1EFF) or white space
    is kept, any other becomes exactly one space, so the length does not
    change; only the later white-space step, when enabled, works on the
    result.  On ["fox,dog"] the result is ["fox dog"]. *)
Theorem removePunctuation_replaces_by_space
    (toLowerCase : jsstring -> jsstring) (text : jsstring)
    (options : PreprocessOptions) :
  removePunctuation options = true ->
  let before := if lowercase options then toLowerCase text else text in
  (exists after,
     preprocessText toLowerCase text options
     = (if removeExtraSpaces options
        then trim (collapseWhiteSpace false after) else after)
     /\ length after = length before
     /\ forall k c, before !! k = Some c ->
          after !! k = Some (if isKept c then c else SPACE))
  /\ (toLowerCase (js "fox,dog") = js "fox,dog" ->
      preprocessText toLowerCase (js "fox,dog") options = js "fox dog").
Proof.
  intros Hpunct before. split.
  - exists (replacePunctuation before).
    split; [unfold preprocessText; by rewrite Hpunct|].
    split; [apply length_map|]. intros k c. apply replacePunctuation_lookup.
  - intros Hlower. unfold preprocessText. rewrite Hpunct, Hlower.
    by destruct (lowercase options), (removeExtraSpaces options).
Qed.

(** C7 (no preprocessing).  When no options record is passed, and likewise
    when one is passed with its three switches off, the token sequences
    handed to the aligner are the words of the two original texts: the
    texts cut at their runs of white space, no empty word, nothing else
    changed; the report is the one of these two sequences. *)
Theorem no_preprocessing_splits_verbatim
    (toLowerCase : jsstring -> jsstring) (reference prediction : jsstring) :
  wordsOf toLowerCase reference None = whitespaceSeparatedWords reference
  /\ wordsOf toLowerCase reference (Some NO_PREPROCESSING)
     = whitespaceSeparatedWords reference
  /\ calculateWER toLowerCase reference prediction None
     = reportOfWords (whitespaceSeparatedWords reference)
         (whitespaceSeparatedWords prediction)
  /\ calculateWER toLowerCase reference prediction (Some NO_PREPROCESSING)
     = reportOfWords (whitespaceSeparatedWords reference)
         (whitespaceSeparatedWords prediction)
  /\ Forall (fun word => word <> []
                         /\ Forall (fun c => isWhiteSpace c = false) word)
       (whitespaceSeparatedWords reference).
Proof.
  assert (Hwords : forall text o,
            o = None \/ o = Some NO_PREPROCESSING ->
            wordsOf toLowerCase text o = whitespaceSeparatedWords text).
  { intros text o [-> | ->]; unfold wordsOf, tokenize; simpl;
      by apply tokenize_wordsFrom. }
  split; [apply Hwords; auto|]. split; [apply Hwords; auto|].
  rewrite !calculateWER_reportOfWords, !Hwords by auto.
  split; [done|]. split; [done|].
  by apply wordsFrom_well_formed.
Qed.

(** C8, as the code has it.  [calculateWER] has no bound on the number of
    tokens: for every pair of texts and every choice of options it builds
    the full cost matrix of [m + 1] rows of [n + 1] cells and returns a
    report, whose [totalWords] is the number of reference tokens. *)
Theorem calculateWER_has_no_size_limit
    (toLowerCase : jsstring -> jsstring) (reference prediction : jsstring)
    (preprocessOptions : option PreprocessOptions) :
  let refWords := wordsOf toLowerCase reference preprocessOptions in
  let predWords := wordsOf toLowerCase prediction preprocessOptions in
  hasShape (length refWords) (length predWords) (costMatrix refWords predWords)
  /\ exists r,
       calculateWER toLowerCase reference prediction preprocessOptions = Some r
       /\ totalWords r = length refWords.
Proof.
  intros refWords predWords. split; [apply costMatrix_shape|].
  apply calculateWER_returns.
Qed.

(** C8, as stated, fails: there is no bound [N] on the token count past
    which [calculateWER] gives no report. *)
Lemma no_size_limit_is_signalled :
  ~ exists N : nat,
      forall (toLowerCase : jsstring -> jsstring)
             (reference prediction : jsstring)
             (preprocessOptions : option PreprocessOptions),
        N < length (wordsOf toLowerCase reference preprocessOptions)
        \/ N < length (wordsOf toLowerCase prediction preprocessOptions) ->
        calculateWER toLowerCase reference prediction preprocessOptions = None.
Proof.
  intros [N Hlimit].
  specialize (Hlimit asciiToLowerCase (manyWords (S N)) [] None).
  destruct (calculateWER_returns asciiToLowerCase (manyWords (S N)) [] None)
    as (r & Hr & _).
  rewrite Hlimit in Hr; [done|]. left.
  unfold wordsOf, tokenize.
  rewrite tokenize_wordsFrom by done.
  rewrite wordsFrom_manyWords, length_replicate. lia.
Qed.

(** C9 (batch aggregation).  The overall WER of a batch is the sum of the
    per-sample substitution, insertion and deletion counts divided by the
    sum of the per-sample [totalWords], or [0] when that sum is [0]; two
    samples with 4 words and 1 error and with 6 words and 2 errors give
    3/10, which is not the mean of their rates 1/4 and 2/6. *)
Theorem overall_wer_pools_counts (results : list IndexedResult) :
  overallWer (overallStatsOf results)
  = (let words := sum_list ((fun r => totalWords (result r)) <$> results) in
     let errors :=
       (sum_list ((fun r => substitutions (result r)) <$> results)
        + sum_list ((fun r => insertions (result r)) <$> results)
        + sum_list ((fun r => deletions (result r)) <$> results))%nat in
     if decide (words = 0%nat) then 0 else num errors / num words)%Q
  /\ forall r1 r2,
       totalWords (result r1) = 4 -> totalErrors (result r1) = 1 ->
       totalWords (result r2) = 6 -> totalErrors (result r2) = 2 ->
       (overallWer (overallStatsOf [r1; r2]) == 3 # 10)%Q
       /\ ((wer (result r1) == 1 # 4)%Q -> (wer (result r2) == 2 # 6)%Q ->
           ~ (meanOfRates [r1; r2] == overallWer (overallStatsOf [r1; r2]))%Q).
Proof.
  split.
  - unfold overallStatsOf. cbn [overallWer].
    rewrite !foldl_add_sum_list. cbv zeta. simpl.
    destruct (sum_list _) as [|k]; done.
  - intros r1 r2 Hw1 He1 Hw2 He2.
    assert (Hpooled : (overallWer (overallStatsOf [r1; r2]) == 3 # 10)%Q).
    { unfold overallStatsOf. cbn [overallWer foldl]. rewrite Hw1, Hw2.
      replace (0 + substitutions (result r1) + substitutions (result r2)
               + (0 + insertions (result r1) + insertions (result r2))
               + (0 + deletions (result r1) + deletions (result r2)))
        with 3 by (unfold totalErrors in *; lia).
      reflexivity. }
    split; [done|]. intros Hr1 Hr2. rewrite Hpooled.
    unfold meanOfRates. cbn [foldl length]. rewrite Hr1, Hr2. done.
Qed.

(** ** The properties on concrete inputs *)

(** C3 on the references [a b] and the hypothesis [c d]. *)
Lemma full_mismatch_witness :
  length [js "a"; js "b"] = length [js "c"; js "d"]
  /\ Forall (fun r => r ∉ [js "c"; js "d"]) [js "a"; js "b"]
  /\ exists trace errors,
       alignWordsWithPositions [js "a"; js "b"] [js "c"; js "d"]
       = Some (trace, errors)
       /\ Forall (fun a => type a = substitution) trace
       /\ length trace = length [js "a"; js "b"]
       /\ countType insertion trace = 0
       /\ countType deletion trace = 0.
Proof.
  assert (Hlen : length [js "a"; js "b"] = length [js "c"; js "d"])
    by reflexivity.
  assert (Hdiff : Forall (fun r => r ∉ [js "c"; js "d"]) [js "a"; js "b"]).
  { apply (bool_decide_unpack _). vm_compute. exact I. }
  exact (conj Hlen (conj Hdiff
           (full_mismatch_all_substitutions _ _ Hlen Hdiff))).
Defined.

(** C4 on the reference [a b c] and the hypothesis [a c]. *)
Lemma costMatrix_bounds_witness :
  (Z.abs (3 - 2) <= Z.of_nat (dpGet (costMatrix [js "a"; js "b"; js "c"]
                                      [js "a"; js "c"]) 3 2))%Z
  /\ dpGet (costMatrix [js "a"; js "b"; js "c"] [js "a"; js "c"]) 3 2 <= 3
  /\ dpGet (costMatrix [js "a"; js "b"; js "c"] [js "a"; js "c"]) 2 0 = 2
  /\ dpGet (costMatrix [js "a"; js "b"; js "c"] [js "a"; js "c"]) 0 1 = 1.
Proof.
  destruct (costMatrix_bounds [js "a"; js "b"; js "c"] [js "a"; js "c"])
    as (Hlow & Hup & Hcol & Hrow).
  split; [exact Hlow|]. split; [exact Hup|].
  split; [apply Hcol | apply Hrow]; simpl; lia.
Defined.

(** C6 on ["fox,dog"] with the default options. *)
Lemma removePunctuation_witness :
  removePunctuation DEFAULT_PREPROCESS_OPTIONS = true
  /\ asciiToLowerCase (js "fox,dog") = js "fox,dog"
  /\ preprocessText asciiToLowerCase (js "fox,dog") DEFAULT_PREPROCESS_OPTIONS
     = js "fox dog".
Proof.
  split; [reflexivity|]. split; [reflexivity|].
  apply (proj2 (removePunctuation_replaces_by_space asciiToLowerCase
                  (js "fox,dog") DEFAULT_PREPROCESS_OPTIONS eq_refl)).
  reflexivity.
Defined.

(** C9 on a batch of two rows run through [calculateResults]. *)
Lemma overall_wer_witness :
  calculateResults asciiToLowerCase sampleBatch initialPreprocessOptions
  = Some (sampleResults, overallStatsOf sampleResults)
  /\ (fun r => (totalWords (result r), totalErrors (result r)))
       <$> sampleResults = [(4, 1); (6, 2)]
  /\ (overallWer (overallStatsOf sampleResults) == 3 # 10)%Q
  /\ ~ (meanOfRates sampleResults
        == overallWer (overallStatsOf sampleResults))%Q.
Proof.
  split; [vm_compute; reflexivity|]. split; [vm_compute; reflexivity|].
  let rs := eval vm_compute in sampleResults in change sampleResults with rs.
  match goal with
  | |- context [overallStatsOf [?r1; ?r2]] =>
      destruct (proj2 (overall_wer_pools_counts []) r1 r2)
        as [Hpooled Hmean]; [vm_compute; reflexivity..|]
  end.
  split; [exact Hpooled|]. apply Hmean; vm_compute; reflexivity.
Defined.

(** C10 on the reference [a b c] and the hypothesis [a c]: the state the
    loop starts from takes a listed transition, and the run ends with both
    indices at [0]. *)
Lemma fallback_unreachable_witness :
  backtrackStep [js "a"; js "b"; js "c"] [js "a"; js "c"]
    (costMatrix [js "a"; js "b"; js "c"] [js "a"; js "c"])
    (initialState [js "a"; js "b"; js "c"] [js "a"; js "c"])
  <> FallbackBreak
  /\ exists s,
       backtrack [js "a"; js "b"; js "c"] [js "a"; js "c"]
         (costMatrix [js "a"; js "b"; js "c"] [js "a"; js "c"]) 6
         (initialState [js "a"; js "b"; js "c"] [js "a"; js "c"])
       = Some (ConditionFalse, s)
       /\ bt_i s = 0 /\ bt_j s = 0
       /\ type <$> bt_alignment s = [correct; deletion; correct].
Proof.
  destruct (fallback_unreachable [js "a"; js "b"; js "c"] [js "a"; js "c"])
    as (Hstep & _ & s & Hrun & Hi & Hj & _).
  split; [apply Hstep; simpl; lia|].
  exists s. split; [exact Hrun|]. split; [exact Hi|]. split; [exact Hj|].
  vm_compute in Hrun. by injection Hrun as <-.
Defined.

(** ** The scenarios of the specification *)

Example scenario_identical :
  summary <$> calculateWER asciiToLowerCase
                (js "The quick brown fox") (js "The quick brown fox") None
  = Some (0%Q, 0, 0, 0, 4, [correct; correct; correct; correct]).
Proof. vm_compute. reflexivity. Qed.

Example scenario_substitution :
  summary <$> calculateWER asciiToLowerCase
                (js "Hello world") (js "Hello word") None
  = Some ((1 # 2)%Q, 1, 0, 0, 2, [correct; substitution]).
Proof. vm_compute. reflexivity. Qed.

Example scenario_empty_reference :
  summary <$> calculateWER asciiToLowerCase (js "") (js "hello") None
  = Some (0%Q, 0, 1, 0, 0, [insertion]).
Proof. vm_compute. reflexivity. Qed.

Example scenario_deletion :
  summary <$> calculateWER asciiToLowerCase (js "a b c") (js "a c") None
  = Some ((1 # 3)%Q, 0, 0, 1, 3, [correct; deletion; correct]).
Proof. vm_compute. reflexivity. Qed.

Example scenario_normalised :
  summary <$> calculateWERWithDefaults asciiToLowerCase
                (js "Hello, world!") (js "hello world")
  = Some (0%Q, 0, 0, 0, 2, [correct; correct]).
Proof. vm_compute. reflexivity. Qed.

Example scenario_split :
  splitWhiteSpace [] false (js "  a  b ") = [js ""; js "a"; js "b"; js ""]
  /\ tokenize (js "  a  b ") = [js "a"; js "b"]
  /\ splitWhiteSpace [] false (js "") = [js ""].
Proof. vm_compute. done. Qed.

(** * Further properties of the code *)

(** ** Entries, detailed errors and cost of the trace *)

Section ErrorInvariant.
Variables ref pred : list jsstring.

Lemma sameWord_true_words i j :
  0 < i <= length ref -> 0 < j <= length pred ->
  sameWord ref pred i j = true -> ref !!! (i - 1) = pred !!! (j - 1).
Proof.
  intros Hi Hj Hsame. unfold sameWord in Hsame.
  apply bool_decide_eq_true in Hsame.
  rewrite (list_lookup_lookup_total_lt ref) in Hsame by lia.
  rewrite (list_lookup_lookup_total_lt pred) in Hsame by lia.
  congruence.
Qed.

Lemma sameWord_false_words i j :
  0 < i <= length ref -> 0 < j <= length pred ->
  sameWord ref pred i j = false -> ref !!! (i - 1) <> pred !!! (j - 1).
Proof.
  intros Hi Hj Hsame Heq. unfold sameWord in Hsame.
  apply bool_decide_eq_false in Hsame. apply Hsame.
  rewrite (list_lookup_lookup_total_lt ref) by lia.
  rewrite (list_lookup_lookup_total_lt pred) by lia.
  congruence.
Qed.

Lemma errorCount_cons a trace :
  errorCount (a :: trace)
  = (if decide (type a = correct) then 0 else 1) + errorCount trace.
Proof.
  unfold errorCount. rewrite filter_cons.
  destruct (decide (type a = correct)) as [Heq|Hne].
  - by rewrite decide_False by auto.
  - by rewrite decide_True by done.
Qed.

Lemma costInvariant_extend s a s' :
  costInvariant ref pred s ->
  traceInvariant ref pred s' ->
  bt_alignment s' = a :: bt_alignment s ->
  bt_detailedErrors s'
  = match errorOf a with
    | Some e => e :: bt_detailedErrors s
    | None => bt_detailedErrors s
    end ->
  entryShape a ->
  (if decide (type a = correct) then 0 else 1)
  + editCost ref pred (bt_i s') (bt_j s')
  = editCost ref pred (bt_i s) (bt_j s) ->
  costInvariant ref pred s'.
Proof.
  intros (_ & Hshape & Herr & Hcost) Htrace HA HE Ha Hstep.
  split; [done|]. rewrite HA, HE, errorCount_cons. split; [by constructor|].
  split; [|lia]. simpl. rewrite Herr. by destruct (errorOf a).
Qed.

Lemma costInvariant_step s :
  costInvariant ref pred s ->
  match backtrackStep ref pred (costMatrix ref pred) s with
  | Continue s' => costInvariant ref pred s'
  | LoopExit => True
  | FallbackBreak => False
  end.
Proof.
  intros Hinv.
  pose proof Hinv as (Htrace & _).
  pose proof (traceInvariant_step ref pred s Htrace) as Hstep.
  destruct Htrace as (Hi & Hj & _).
  destruct (backtrackStep ref pred (costMatrix ref pred) s) as [s'| |] eqn:Hs;
    [|done..].
  revert Hs. unfold backtrackStep.
  rewrite !costMatrix_editCost by lia.
  destruct s as [i j rp pp A E];
    cbn [bt_i bt_j refPos predPos bt_alignment bt_detailedErrors] in *.
  destruct i as [|i]; destruct j as [|j];
    change (0 <? 0) with false; try change (0 <? S i) with true;
    try change (0 <? S j) with true; cbn [negb orb andb]; [done | | |];
    rewrite ?Nat.sub_succ, ?Nat.sub_0_r.
  - cbn [editCost].
    rewrite (proj2 (Nat.eqb_eq (S j) (j + 1))) by lia. intros [= <-].
    eapply costInvariant_extend; [exact Hinv | done | reflexivity..| |].
    + repeat split; eauto.
    + simpl. lia.
  - rewrite !editCost_0_r.
    rewrite (proj2 (Nat.eqb_eq (S i) (i + 1))) by lia. intros [= <-].
    eapply costInvariant_extend; [exact Hinv | done | reflexivity..| |].
    + repeat split; eauto.
    + cbn [bt_i bt_j type]. rewrite !editCost_0_r. simpl. lia.
  - pose proof (editCost_S_S ref pred i j) as Hrec.
    pose proof (sameWord_true_words (S i) (S j)) as Hsame_words.
    pose proof (sameWord_false_words (S i) (S j)) as Hdiff_words.
    rewrite !Nat.sub_succ, !Nat.sub_0_r in Hsame_words, Hdiff_words.
    destruct (sameWord ref pred (S i) (S j)) eqn:Hsame.
    + intros [= <-].
      eapply costInvariant_extend; [exact Hinv | done | reflexivity..| |].
      * repeat split; eauto. apply Hsame_words; (done || lia).
      * cbn [bt_i bt_j type]. rewrite decide_True by done. lia.
    + repeat match goal with
             | |- context [?a =? ?b] => destruct (Nat.eqb_spec a b)
             end; try done; intros [= <-];
        (eapply costInvariant_extend;
           [exact Hinv | done | reflexivity..| |];
           [repeat split; eauto; apply Hdiff_words; (done || lia)
           | cbn [bt_i bt_j type]; rewrite decide_False by done; lia]).
Qed.
End ErrorInvariant.

Section AlignerResult.
Variables ref pred : list jsstring.

Lemma costInvariant_initialState :
  costInvariant ref pred (initialState ref pred).
Proof.
  split; [apply traceInvariant_initialState|]. by repeat split.
Qed.

Lemma alignWordsWithPositions_invariants :
  exists trace errors,
    alignWordsWithPositions ref pred = Some (trace, errors)
    /\ referenceSide trace = indexed ref
    /\ predictionSide trace = indexed pred
    /\ Forall entryShape trace
    /\ errors = omap errorOf trace
    /\ errorCount trace = editCost ref pred (length ref) (length pred).
Proof.
  destruct (backtrack_invariant ref pred (costInvariant ref pred)
              (costMatrix ref pred) (costInvariant_step ref pred)
              (S (length ref + length pred)) (initialState ref pred))
    as (s & Hrun & (Htrace & Hshape & Herr & Hcost) & Hi & Hj).
  - apply costInvariant_initialState.
  - simpl. lia.
  - exists (bt_alignment s), (bt_detailedErrors s).
    unfold alignWordsWithPositions. rewrite Hrun.
    destruct Htrace as (_ & _ & _ & _ & HA & HB).
    rewrite Hi in HA, Hcost. rewrite Hj in HB, Hcost. simpl in Hcost.
    repeat split; try done. lia.
Qed.

Lemma editCost_0_l j : editCost ref pred 0 j = j.
Proof. reflexivity. Qed.

(** Neighbouring cells of the recurrence differ by at most one. *)
Lemma editCost_neighbours k : forall i j, i + j <= k ->
  editCost ref pred i j <= editCost ref pred i (S j) + 1
  /\ editCost ref pred i j <= editCost ref pred (S i) j + 1
  /\ editCost ref pred (S i) j <= editCost ref pred i j + 1
  /\ editCost ref pred i (S j) <= editCost ref pred i j + 1.
Proof.
  induction k as [|k IH]; intros i j Hk.
  - assert (i = 0) as -> by lia. assert (j = 0) as -> by lia.
    rewrite !editCost_0_l, !editCost_0_r. lia.
  - destruct i as [|i]; destruct j as [|j].
    + rewrite !editCost_0_l, !editCost_0_r. lia.
    + destruct (IH 0 j) as (A1 & A2 & A3 & A4); [lia|].
      rewrite !editCost_S_S, !editCost_0_l in *.
      destruct (sameWord ref pred 1 (S j)); lia.
    + destruct (IH i 0) as (A1 & A2 & A3 & A4); [lia|].
      rewrite !editCost_S_S, !editCost_0_r in *.
      destruct (sameWord ref pred (S i) 1), (sameWord ref pred (S (S i)) 1); lia.
    + destruct (IH (S i) j) as (B1 & B2 & B3 & B4); [lia|].
      destruct (IH i (S j)) as (C1 & C2 & C3 & C4); [lia|].
      rewrite (editCost_S_S ref pred (S i) j).
      rewrite (editCost_S_S ref pred i (S j)).
      destruct (sameWord ref pred (S (S i)) (S j)),
        (sameWord ref pred (S i) (S (S j))); lia.
Qed.
End AlignerResult.

Lemma take_snoc_inv {A} (l xs : list A) x i :
  i <= length l -> xs ++ [x] = take i l ->
  exists i', i = S i' /\ xs = take i' l /\ l !! i' = Some x.
Proof.
  intros Hi Heq. destruct i as [|i'].
  - rewrite take_0 in Heq. by destruct xs.
  - exists i'. destruct (lookup_lt_is_Some_2 l i') as [y Hy]; [lia|].
    rewrite (take_S_r _ _ _ Hy) in Heq.
    apply app_inj_tail in Heq as [-> ->]. done.
Qed.

Lemma take_nil_inv {A} (l : list A) i : i <= length l -> [] = take i l -> i = 0.
Proof.
  intros Hi Heq. apply (f_equal length) in Heq.
  rewrite length_take in Heq. simpl in Heq. lia.
Qed.

Lemma errorCount_snoc trace a :
  errorCount (trace ++ [a])
  = errorCount trace + (if decide (type a = correct) then 0 else 1).
Proof.
  unfold errorCount. rewrite filter_app, length_app. f_equal.
  rewrite filter_cons, filter_nil.
  destruct (decide (type a = correct)) as [Heq|Hne].
  - by rewrite decide_False by auto.
  - by rewrite decide_True by done.
Qed.

Section LowerBound.
Variables ref pred : list jsstring.

Lemma sameWord_lookup i j w :
  ref !! i = Some w -> pred !! j = Some w ->
  sameWord ref pred (S i) (S j) = true.
Proof.
  intros Hr Hp. unfold sameWord. apply bool_decide_eq_true.
  rewrite !Nat.sub_succ, !Nat.sub_0_r. congruence.
Qed.

Lemma editCost_lower_bound trace : forall i j,
  i <= length ref -> j <= length pred ->
  referenceWords trace = take i ref ->
  predictionWords trace = take j pred ->
  Forall (fun a => type a = correct -> reference a = prediction a) trace ->
  editCost ref pred i j <= errorCount trace.
Proof.
  induction trace as [|a trace IH] using rev_ind; intros i j Hi Hj Hr Hp Hok.
  - apply take_nil_inv in Hr as ->; [|done].
    apply take_nil_inv in Hp as ->; [|done]. done.
  - unfold referenceWords, predictionWords in Hr, Hp.
    rewrite omap_app in Hr, Hp. simpl in Hr, Hp.
    apply Forall_app in Hok as [Hok Ha]. apply Forall_inv in Ha.
    rewrite errorCount_snoc.
    destruct (editCost_neighbours ref pred (i + j) i j) as (_ & _ & _ & _);
      [done|].
    destruct (type a) eqn:Ht; simpl in Hr, Hp.
    + apply take_snoc_inv in Hr as (i' & -> & Hr & Hri); [|done].
      apply take_snoc_inv in Hp as (j' & -> & Hp & Hpj); [|done].
      specialize (Ha eq_refl). rewrite Ha in Hri.
      rewrite editCost_S_S, (sameWord_lookup _ _ _ Hri Hpj).
      rewrite decide_True by done. rewrite Nat.add_0_r.
      apply IH; (done || lia).
    + apply take_snoc_inv in Hr as (i' & -> & Hr & Hri); [|done].
      apply take_snoc_inv in Hp as (j' & -> & Hp & Hpj); [|done].
      rewrite decide_False by done.
      specialize (IH i' j'). rewrite editCost_S_S.
      destruct (sameWord ref pred (S i') (S j'));
        (etrans; [|apply Nat.add_le_mono_r, IH; (done || lia)]); lia.
    + rewrite app_nil_r in Hr.
      apply take_snoc_inv in Hp as (j' & -> & Hp & Hpj); [|done].
      rewrite decide_False by done.
      destruct (editCost_neighbours ref pred (i + j') i j') as (_ & _ & _ & H4);
        [done|].
      specialize (IH i j'). etrans; [exact H4|].
      apply Nat.add_le_mono_r, IH; (done || lia).
    + rewrite app_nil_r in Hp.
      apply take_snoc_inv in Hr as (i' & -> & Hr & Hri); [|done].
      rewrite decide_False by done.
      destruct (editCost_neighbours ref pred (i' + j) i' j) as (_ & _ & H3 & _);
        [done|].
      specialize (IH i' j). etrans; [exact H3|].
      apply Nat.add_le_mono_r, IH; (done || lia).
Qed.
End LowerBound.

Lemma referenceWords_cons a trace :
  referenceWords (a :: trace)
  = match type a with
    | insertion => referenceWords trace
    | _ => reference a :: referenceWords trace
    end.
Proof. unfold referenceWords. simpl. by destruct (type a). Qed.

Lemma predictionWords_cons a trace :
  predictionWords (a :: trace)
  = match type a with
    | deletion => predictionWords trace
    | _ => prediction a :: predictionWords trace
    end.
Proof. unfold predictionWords. simpl. by destruct (type a). Qed.

Lemma referenceSide_cons a trace :
  referenceSide (a :: trace)
  = match referencePosition a with
    | Some p => (p, reference a) :: referenceSide trace
    | None => referenceSide trace
    end.
Proof. unfold referenceSide. simpl. by destruct (referencePosition a). Qed.

Lemma predictionSide_cons a trace :
  predictionSide (a :: trace)
  = match predictionPosition a with
    | Some p => (p, prediction a) :: predictionSide trace
    | None => predictionSide trace
    end.
Proof. unfold predictionSide. simpl. by destruct (predictionPosition a). Qed.

(** Reading off the words of a well-shaped trace by tag or by position
    gives the same words. *)
Lemma referenceWords_referenceSide trace :
  Forall entryShape trace -> referenceWords trace = (referenceSide trace).*2.
Proof.
  induction 1 as [|a trace Ha _ IH]; [done|].
  rewrite referenceWords_cons, referenceSide_cons, IH.
  unfold entryShape in Ha.
  destruct (type a), Ha as (_ & H1 & _).
  1, 2, 4: by destruct H1 as [p ->].
  by rewrite H1.
Qed.

Lemma predictionWords_predictionSide trace :
  Forall entryShape trace -> predictionWords trace = (predictionSide trace).*2.
Proof.
  induction 1 as [|a trace Ha _ IH]; [done|].
  rewrite predictionWords_cons, predictionSide_cons, IH.
  unfold entryShape in Ha.
  destruct (type a), Ha as (_ & _ & H2).
  1, 2, 3: by destruct H2 as [p ->].
  by rewrite H2.
Qed.

Lemma indexed_words (words : list jsstring) : (indexed words).*2 = words.
Proof.
  unfold indexed. apply list_eq. intros k.
  rewrite list_lookup_fmap, list_lookup_imap.
  by destruct (words !! k).
Qed.

Lemma entryShape_aligns ref pred trace :
  Forall entryShape trace ->
  referenceSide trace = indexed ref -> predictionSide trace = indexed pred ->
  aligns ref pred trace.
Proof.
  intros Hshape HA HB. split; [|split].
  - by rewrite referenceWords_referenceSide, HA, indexed_words.
  - by rewrite predictionWords_predictionSide, HB, indexed_words.
  - eapply Forall_impl; [exact Hshape|]. intros a Ha Ht.
    unfold entryShape in Ha. rewrite Ht in Ha. tauto.
Qed.

Lemma countType_cons t a trace :
  countType t (a :: trace)
  = (if decide (type a = t) then 1 else 0) + countType t trace.
Proof. unfold countType. rewrite filter_cons. by destruct (decide _). Qed.

Lemma length_referenceWords trace :
  length (referenceWords trace)
  = countType correct trace + countType substitution trace
    + countType deletion trace.
Proof.
  induction trace as [|a trace IH]; [done|].
  rewrite referenceWords_cons, !countType_cons.
  destruct (type a); simpl; rewrite IH; lia.
Qed.

Lemma length_predictionWords trace :
  length (predictionWords trace)
  = countType correct trace + countType substitution trace
    + countType insertion trace.
Proof.
  induction trace as [|a trace IH]; [done|].
  rewrite predictionWords_cons, !countType_cons.
  destruct (type a); simpl; rewrite IH; lia.
Qed.

Lemma length_trace_countType trace :
  length trace
  = countType correct trace + countType substitution trace
    + countType insertion trace + countType deletion trace.
Proof.
  induction trace as [|a trace IH]; [done|].
  rewrite !countType_cons. destruct (type a); simpl; rewrite IH; lia.
Qed.

Lemma errorCount_countType trace :
  errorCount trace
  = countType substitution trace + countType insertion trace
    + countType deletion trace.
Proof. unfold errorCount. by rewrite countType_errors. Qed.

Lemma countType_0_Forall t trace :
  countType t trace = 0 -> Forall (fun a => type a <> t) trace.
Proof.
  induction trace as [|a trace IH]; [constructor|].
  rewrite countType_cons. destruct (decide (type a = t)); [done|].
  intros H. constructor; [done|]. by apply IH.
Qed.

Lemma num_div_le_1 a b : a <= b -> (num a / num b <= 1)%Q.
Proof.
  intros Hab. destruct b as [|b].
  - replace a with 0 by lia. done.
  - apply Qle_shift_div_r.
    + unfold num. change 0%Q with (inject_Z 0). rewrite <- Zlt_Qlt. lia.
    + rewrite Qmult_1_l. unfold num. rewrite <- Zle_Qle. lia.
Qed.


Lemma calculateWER_fields toLowerCase reference prediction options trace errors :
  alignWordsWithPositions (wordsOf toLowerCase reference options)
    (wordsOf toLowerCase prediction options) = Some (trace, errors) ->
  exists r,
    calculateWER toLowerCase reference prediction options = Some r
    /\ alignment r = trace /\ detailedErrors r = errors
    /\ substitutions r = countType substitution trace
    /\ insertions r = countType insertion trace
    /\ deletions r = countType deletion trace
    /\ totalWords r = length (wordsOf toLowerCase reference options)
    /\ wer r = (if 0 <? totalWords r
                then num (totalErrors r) / num (totalWords r) else 0)%Q
    /\ substitutionRate r
       = (if 0 <? totalWords r
          then num (substitutions r) / num (totalWords r) else 0)%Q
    /\ deletionRate r
       = (if 0 <? totalWords r
          then num (deletions r) / num (totalWords r) else 0)%Q.
Proof.
  intros Halign. rewrite calculateWER_reportOfWords.
  rewrite (reportOfWords_fields _ _ _ _ Halign). cbv zeta.
  eexists. split; [reflexivity|]. repeat split.
Qed.

Lemma omap_errorOf_cons a trace :
  omap errorOf (a :: trace)
  = match errorOf a with
    | Some e => e :: omap errorOf trace
    | None => omap errorOf trace
    end.
Proof. reflexivity. Qed.

Lemma length_omap_errorOf trace :
  length (omap errorOf trace) = errorCount trace.
Proof.
  induction trace as [|a trace IH]; [done|].
  rewrite errorCount_cons, omap_errorOf_cons.
  unfold errorOf at 1. destruct (type a); simpl; by rewrite IH.
Qed.

(** X1.  The detailed errors returned with a trace are the projection of
    its entries: one detail per entry that is not [correct], in the order of
    the trace, with the tag, the words and the positions of that entry. *)
Theorem detailedErrors_mirror_alignment (ref pred : list jsstring) :
  exists trace errors,
    alignWordsWithPositions ref pred = Some (trace, errors)
    /\ errors = omap errorOf trace
    /\ length errors = errorCount trace.
Proof.
  destruct (alignWordsWithPositions_invariants ref pred)
    as (trace & errors & Halign & _ & _ & _ & Herr & _).
  exists trace, errors. split; [done|]. split; [done|]. subst errors.
  apply length_omap_errorOf.
Qed.

(** X2.  Every entry of a trace has the shape of its tag: a [correct] entry
    carries twice the same word and both positions, a [substitution] two
    different words and both positions, a [deletion] the empty string as
    prediction and no prediction position, an [insertion] the empty string
    as reference and no reference position. *)
Theorem alignment_entry_shapes (ref pred : list jsstring) :
  exists trace errors,
    alignWordsWithPositions ref pred = Some (trace, errors)
    /\ Forall entryShape trace.
Proof.
  destruct (alignWordsWithPositions_invariants ref pred)
    as (trace & errors & Halign & _ & _ & Hshape & _).
  by exists trace, errors.
Qed.

(** X3.  The number of errors of a report (substitutions, insertions and
    deletions together) is the corner cell of the cost matrix of the two
    token sequences, so it lies between the difference of their lengths and
    the larger length. *)
Theorem error_count_is_corner_cell
    (toLowerCase : jsstring -> jsstring) (reference prediction : jsstring)
    (options : option PreprocessOptions) :
  let refWords := wordsOf toLowerCase reference options in
  let predWords := wordsOf toLowerCase prediction options in
  exists r,
    calculateWER toLowerCase reference prediction options = Some r
    /\ totalErrors r
       = dpGet (costMatrix refWords predWords)
           (length refWords) (length predWords)
    /\ length refWords - length predWords <= totalErrors r
    /\ length predWords - length refWords <= totalErrors r
    /\ totalErrors r <= length refWords `max` length predWords.
Proof.
  intros refWords predWords.
  destruct (alignWordsWithPositions_invariants refWords predWords)
    as (trace & errors & Halign & _ & _ & _ & _ & Hcost).
  destruct (calculateWER_fields _ _ _ _ _ _ Halign)
    as (r & Hr & _ & _ & Hs & Hi & Hd & _).
  exists r. split; [done|].
  assert (Herrors : totalErrors r
                    = editCost refWords predWords
                        (length refWords) (length predWords)).
  { unfold totalErrors. rewrite Hs, Hi, Hd, <- errorCount_countType. done. }
  rewrite costMatrix_editCost, Herrors by done.
  pose proof (editCost_upper refWords predWords
                (length refWords) (length predWords)).
  pose proof (editCost_lower refWords predWords
                (length refWords) (length predWords)).
  lia.
Qed.

(** X4.  The trace is an alignment of the two token sequences, and no
    alignment of them has fewer errors: the backtracking always follows a
    cheapest path, also when it takes the match branch without looking at
    the costs. *)
Theorem alignment_is_optimal (ref pred : list jsstring) :
  exists trace errors,
    alignWordsWithPositions ref pred = Some (trace, errors)
    /\ aligns ref pred trace
    /\ forall other, aligns ref pred other ->
         errorCount trace <= errorCount other.
Proof.
  destruct (alignWordsWithPositions_invariants ref pred)
    as (trace & errors & Halign & HA & HB & Hshape & _ & Hcost).
  exists trace, errors. split; [done|].
  split; [by apply entryShape_aligns|].
  intros other (Hr & Hp & Hok). rewrite Hcost.
  apply editCost_lower_bound; try done.
  - by rewrite Hr, take_ge.
  - by rewrite Hp, take_ge.
Qed.

(** X5.  In every report the correct entries, the substitutions and the
    deletions together are the reference words, the correct entries, the
    substitutions and the insertions together are the hypothesis words, and
    the trace has one entry per reference word plus one per insertion. *)
Theorem alignment_counts_balance
    (toLowerCase : jsstring -> jsstring) (reference prediction : jsstring)
    (options : option PreprocessOptions) :
  exists r,
    calculateWER toLowerCase reference prediction options = Some r
    /\ countType correct (alignment r) + substitutions r + deletions r
       = totalWords r
    /\ countType correct (alignment r) + substitutions r + insertions r
       = length (wordsOf toLowerCase prediction options)
    /\ length (alignment r) = totalWords r + insertions r.
Proof.
  destruct (alignWordsWithPositions_invariants
              (wordsOf toLowerCase reference options)
              (wordsOf toLowerCase prediction options))
    as (trace & errors & Halign & HA & HB & Hshape & _).
  destruct (calculateWER_fields _ _ _ _ _ _ Halign)
    as (r & Hr & Htrace & _ & Hs & Hi & Hd & Hw & _).
  exists r. split; [done|]. rewrite Htrace, Hs, Hi, Hd, Hw.
  destruct (entryShape_aligns _ _ _ Hshape HA HB) as (Href & Hpred & _).
  apply (f_equal length) in Href, Hpred.
  rewrite length_referenceWords in Href.
  rewrite length_predictionWords in Hpred.
  rewrite (length_trace_countType trace). lia.
Qed.

(** X6.  Substitutions and deletions each use up a reference word, so
    together they are at most [totalWords], and neither the substitution
    rate nor the deletion rate exceeds 1 (the insertion rate has no such
    bound). *)
Theorem substitution_and_deletion_rates_bounded
    (toLowerCase : jsstring -> jsstring) (reference prediction : jsstring)
    (options : option PreprocessOptions) :
  exists r,
    calculateWER toLowerCase reference prediction options = Some r
    /\ substitutions r + deletions r <= totalWords r
    /\ (substitutionRate r <= 1)%Q
    /\ (deletionRate r <= 1)%Q.
Proof.
  destruct (alignWordsWithPositions_invariants
              (wordsOf toLowerCase reference options)
              (wordsOf toLowerCase prediction options))
    as (trace & errors & Halign & HA & HB & Hshape & _).
  destruct (calculateWER_fields _ _ _ _ _ _ Halign)
    as (r & Hr & _ & _ & Hs & _ & Hd & Hw & _ & Hsr & Hdr).
  exists r. split; [done|].
  assert (Hle : substitutions r + deletions r <= totalWords r).
  { rewrite Hs, Hd, Hw.
    destruct (entryShape_aligns _ _ _ Hshape HA HB) as (Href & _ & _).
    rewrite <- Href at 1. rewrite length_referenceWords. lia. }
  split; [done|]. rewrite Hsr, Hdr.
  destruct (0 <? totalWords r); [|done].
  split; apply num_div_le_1; lia.
Qed.

(** X7.  When the hypothesis has no more words than the reference, the word
    error rate is at most 1. *)
Theorem wer_at_most_one
    (toLowerCase : jsstring -> jsstring) (reference prediction : jsstring)
    (options : option PreprocessOptions) :
  length (wordsOf toLowerCase prediction options)
  <= length (wordsOf toLowerCase reference options) ->
  exists r,
    calculateWER toLowerCase reference prediction options = Some r
    /\ (wer r <= 1)%Q.
Proof.
  intros Hlen.
  destruct (alignWordsWithPositions_invariants
              (wordsOf toLowerCase reference options)
              (wordsOf toLowerCase prediction options))
    as (trace & errors & Halign & _ & _ & _ & _ & Hcost).
  destruct (calculateWER_fields _ _ _ _ _ _ Halign)
    as (r & Hr & _ & _ & Hs & Hi & Hd & Hw & Hwer & _).
  exists r. split; [done|]. rewrite Hwer.
  destruct (0 <? totalWords r); [|done].
  apply num_div_le_1. unfold totalErrors.
  rewrite Hs, Hi, Hd, Hw, <- errorCount_countType, Hcost.
  etrans; [apply editCost_upper|]. lia.
Qed.

(** X8.  Against an empty hypothesis every reference word is a deletion:
    the trace has one [deletion] per reference word and nothing else, and
    the word error rate is 1 unless the reference is empty too. *)
Theorem empty_hypothesis_all_deletions (refWords : list jsstring) :
  exists r,
    reportOfWords refWords [] = Some r
    /\ Forall (fun a => type a = deletion) (alignment r)
    /\ deletions r = length refWords
    /\ substitutions r = 0 /\ insertions r = 0
    /\ (wer r == if decide (refWords = []) then 0 else 1)%Q.
Proof.
  destruct (alignWordsWithPositions_invariants refWords [])
    as (trace & errors & Halign & HA & HB & Hshape & _).
  rewrite (reportOfWords_fields _ _ _ _ Halign). cbv zeta.
  eexists. split; [reflexivity|].
  cbn [alignment deletions substitutions insertions wer].
  destruct (entryShape_aligns _ _ _ Hshape HA HB) as (Href & Hpred & _).
  apply (f_equal length) in Href, Hpred.
  rewrite length_referenceWords in Href.
  rewrite length_predictionWords in Hpred. simpl in Hpred.
  assert (Hc : countType correct trace = 0) by lia.
  assert (Hs : countType substitution trace = 0) by lia.
  assert (Hi : countType insertion trace = 0) by lia.
  split.
  { apply countType_0_Forall in Hc, Hs, Hi.
    rewrite Forall_forall in *. intros a Ha.
    specialize (Hc a Ha). specialize (Hs a Ha). specialize (Hi a Ha).
    by destruct (type a). }
  split; [lia|]. split; [done|]. split; [done|].
  rewrite Hs, Hi. replace (0 + 0 + countType deletion trace)
    with (length refWords) by lia.
  destruct refWords as [|w refWords]; [done|].
  rewrite decide_False by done.
  change (0 <? length (w :: refWords)) with true. cbv iota.
  apply Qmult_inv_r. unfold num. change 0%Q with (inject_Z 0).
  rewrite inject_Z_injective. simpl length. lia.
Qed.

(** X9.  Against an empty reference every hypothesis word is an insertion,
    [totalWords] is 0, and the zero guard makes every rate 0 however many
    words were inserted. *)
Theorem empty_reference_all_insertions (predWords : list jsstring) :
  exists r,
    reportOfWords [] predWords = Some r
    /\ Forall (fun a => type a = insertion) (alignment r)
    /\ insertions r = length predWords
    /\ substitutions r = 0 /\ deletions r = 0 /\ totalWords r = 0
    /\ wer r = 0%Q /\ insertionRate r = 0%Q.
Proof.
  destruct (alignWordsWithPositions_invariants [] predWords)
    as (trace & errors & Halign & HA & HB & Hshape & _).
  rewrite (reportOfWords_fields _ _ _ _ Halign). cbv zeta.
  eexists. split; [reflexivity|].
  cbn [alignment deletions substitutions insertions wer totalWords
       insertionRate].
  destruct (entryShape_aligns _ _ _ Hshape HA HB) as (Href & Hpred & _).
  apply (f_equal length) in Href, Hpred.
  rewrite length_referenceWords in Href.
  rewrite length_predictionWords in Hpred. simpl in Href.
  assert (Hc : countType correct trace = 0) by lia.
  assert (Hs : countType substitution trace = 0) by lia.
  assert (Hd : countType deletion trace = 0) by lia.
  split.
  { apply countType_0_Forall in Hc, Hs, Hd.
    rewrite Forall_forall in *. intros a Ha.
    specialize (Hc a Ha). specialize (Hs a Ha). specialize (Hd a Ha).
    by destruct (type a). }
  repeat split; try done. lia.
Qed.

(** ** Statistics and rendering *)

Lemma join_cons_cons sep part part' rest :
  join sep (part :: part' :: rest) = part ++ sep ++ join sep (part' :: rest).
Proof. reflexivity. Qed.

Lemma length_padEnd s k : length (padEnd s k) = length s `max` k.
Proof. unfold padEnd. rewrite length_app, length_replicate. lia. Qed.

Lemma length_join_widths sep (parts : list jsstring) (widths : list nat) :
  Forall2 (fun part w => length part = w) parts widths ->
  length (join sep parts)
  = sum_list widths + length sep * (length widths - 1).
Proof.
  induction 1 as [|part w parts widths Hw Hrest IH]; [simpl; lia|].
  destruct Hrest as [|part' w' parts' widths' Hw' Hrest'].
  - simpl. lia.
  - change (join sep (part :: part' :: parts'))
      with (part ++ sep ++ join sep (part' :: parts')).
    rewrite !length_app, IH. simpl. lia.
Qed.

Lemma formatColumns_snoc alignment item :
  formatColumns (alignment ++ [item])
  = let '(refLine, predLine, statusLine) := formatColumns alignment in
    (refLine ++ [padEnd (reference item) (columnWidth item)],
     predLine ++ [padEnd (prediction item) (columnWidth item)],
     statusLine ++ [padEnd (statusOf (type item)) (columnWidth item)]).
Proof.
  unfold formatColumns. rewrite foldl_snoc.
  by destruct (foldl _ _ alignment) as [[? ?] ?].
Qed.

Lemma length_statusOf t : length (statusOf t) <= length (typeName t).
Proof. destruct t; simpl; lia. Qed.

Lemma formatColumns_widths alignment :
  let '(refLine, predLine, statusLine) := formatColumns alignment in
  Forall2 (fun part w => length part = w) refLine (columnWidth <$> alignment)
  /\ Forall2 (fun part w => length part = w) predLine
       (columnWidth <$> alignment)
  /\ Forall2 (fun part w => length part = w) statusLine
       (columnWidth <$> alignment).
Proof.
  induction alignment as [|item alignment IH] using rev_ind.
  - repeat split; constructor.
  - rewrite formatColumns_snoc, fmap_app.
    destruct (formatColumns alignment) as [[refLine predLine] statusLine].
    destruct IH as (Hr & Hp & Hs).
    pose proof (length_statusOf (type item)).
    repeat split; (apply Forall2_app; [done|]); repeat constructor;
      rewrite length_padEnd; unfold columnWidth; lia.
Qed.

Lemma length_filter_errorOf t trace :
  t <> correct ->
  length (filter (fun e => errorType e = t) (omap errorOf trace))
  = countType t trace.
Proof.
  intros Ht. induction trace as [|a trace IH]; [done|].
  rewrite countType_cons.
  rewrite omap_errorOf_cons. unfold errorOf at 1.
  destruct (type a); rewrite ?filter_cons; cbn [errorType];
    repeat case_decide; try done; simpl; by rewrite IH.
Qed.

(** X10.  The statistics of a report agree with the report: each group
    counts as many detailed errors as the report has substitutions,
    insertions or deletions, and the total is the number of detailed
    errors. *)
Theorem errorStatistics_match_report
    (toLowerCase : jsstring -> jsstring) (reference prediction : jsstring)
    (options : option PreprocessOptions) :
  exists r,
    calculateWER toLowerCase reference prediction options = Some r
    /\ count (substitutionGroup (getErrorStatistics r)) = substitutions r
    /\ count (insertionGroup (getErrorStatistics r)) = insertions r
    /\ count (deletionGroup (getErrorStatistics r)) = deletions r
    /\ statisticsTotalErrors (getErrorStatistics r)
       = length (detailedErrors r).
Proof.
  destruct (alignWordsWithPositions_invariants
              (wordsOf toLowerCase reference options)
              (wordsOf toLowerCase prediction options))
    as (trace & errs & Halign & _ & _ & _ & Herr & _).
  destruct (calculateWER_fields _ _ _ _ _ _ Halign)
    as (r & Hr & _ & Hdetails & Hs & Hi & Hd & _).
  exists r. split; [done|]. unfold getErrorStatistics.
  cbn [count substitutionGroup insertionGroup deletionGroup
       statisticsTotalErrors].
  rewrite Hdetails, Herr, !length_filter_errorOf, Hs, Hi, Hd by done.
  repeat split.
  by rewrite <- errorCount_countType, length_omap_errorOf.
Qed.

(** X11.  The three rows of the rendering are equally long, whatever the
    words: every column is padded to the longest of the reference word, the
    prediction word and the name of the tag, and the columns are joined by
    single spaces. *)
Theorem formatAlignment_rows_aligned (alignment : list AlignmentResult) :
  exists refRow predRow statusRow,
    formatAlignment alignment
    = js "REF: " ++ refRow ++ [LF] ++ js "HYP: " ++ predRow ++ [LF]
      ++ js "OPS: " ++ statusRow
    /\ length refRow
       = sum_list (columnWidth <$> alignment) + (length alignment - 1)
    /\ length predRow = length refRow
    /\ length statusRow = length refRow.
Proof.
  unfold formatAlignment.
  pose proof (formatColumns_widths alignment) as Hwidths.
  destruct (formatColumns alignment) as [[refLine predLine] statusLine].
  destruct Hwidths as (Hr & Hp & Hs).
  exists (join (js " ") refLine), (join (js " ") predLine),
    (join (js " ") statusLine).
  split; [done|].
  rewrite (length_join_widths _ _ _ Hr), (length_join_widths _ _ _ Hp),
    (length_join_widths _ _ _ Hs), length_fmap.
  simpl. lia.
Qed.

(** ** The white-space step of the normaliser *)

Lemma isWhiteSpace_SPACE : isWhiteSpace SPACE = true.
Proof. reflexivity. Qed.

Lemma trim_trimEnd s : trim s = trimEnd (trimStart s).
Proof. reflexivity. Qed.

Lemma trimEnd_snoc s c :
  trimEnd (s ++ [c]) = if isWhiteSpace c then trimEnd s else s ++ [c].
Proof.
  unfold trimEnd. rewrite reverse_snoc. simpl.
  destruct (isWhiteSpace c); [done|].
  by rewrite reverse_cons, reverse_involutive.
Qed.

Lemma trimEnd_app_word pre cur :
  cur <> [] -> Forall (fun c => isWhiteSpace c = false) cur ->
  trimEnd (pre ++ cur) = pre ++ cur.
Proof.
  intros Hne Hcur. destruct cur as [|c cur _] using rev_ind; [done|].
  apply Forall_app in Hcur as [_ Hc]. apply Forall_inv in Hc.
  rewrite app_assoc, trimEnd_snoc, Hc. done.
Qed.

(** The collapsed text, white space stripped at its end, is the words joined
    by single spaces; [pre] is what was written before the word [cur]. *)
Lemma trimEnd_collapseWhiteSpace text : forall pre cur inRun,
  Forall (fun c => isWhiteSpace c = false) cur ->
  (inRun = true -> cur = []) ->
  (inRun = false -> cur = [] ->
   match text with c :: _ => isWhiteSpace c = false | [] => True end) ->
  trimEnd (pre ++ cur ++ collapseWhiteSpace inRun text)
  = match wordsFrom cur text with
    | [] => trimEnd pre
    | words => pre ++ join [SPACE] words
    end.
Proof.
  induction text as [|c text IH]; intros pre cur inRun Hcur Hrun Hstart.
  - simpl. rewrite app_nil_r. destruct cur as [|c' cur].
    + by rewrite app_nil_r.
    + by apply trimEnd_app_word.
  - simpl. destruct (isWhiteSpace c) eqn:Hc.
    + destruct inRun.
      * rewrite Hrun by done. apply (IH pre [] true); done.
      * destruct cur as [|c' cur].
        { specialize (Hstart eq_refl eq_refl). congruence. }
        replace (pre ++ (c' :: cur) ++ SPACE :: collapseWhiteSpace true text)
          with ((pre ++ (c' :: cur) ++ [SPACE]) ++ []
                ++ collapseWhiteSpace true text)
          by (by rewrite <- !app_assoc).
        rewrite (IH _ [] true) by done.
        destruct (wordsFrom [] text) as [|w words].
        -- rewrite app_assoc, trimEnd_snoc, isWhiteSpace_SPACE.
           by apply trimEnd_app_word.
        -- by rewrite <- !app_assoc.
    + replace (pre ++ cur ++ c :: collapseWhiteSpace false text)
        with (pre ++ (cur ++ [c]) ++ collapseWhiteSpace false text)
        by (by rewrite <- !app_assoc).
      apply IH.
      * apply Forall_app. split; [done|]. by constructor.
      * done.
      * intros _ Hnil. by destruct cur.
Qed.

Lemma trimStart_collapseWhiteSpace text : forall inRun,
  trimStart (collapseWhiteSpace inRun text)
  = collapseWhiteSpace false (trimStart text).
Proof.
  induction text as [|c text IH]; intros inRun; [done|].
  simpl. destruct (isWhiteSpace c) eqn:Hc.
  - destruct inRun; simpl; by rewrite ?isWhiteSpace_SPACE, IH.
  - simpl. by rewrite Hc.
Qed.

Lemma wordsFrom_trimStart text : wordsFrom [] (trimStart text) = wordsFrom [] text.
Proof.
  induction text as [|c text IH]; [done|].
  simpl. destruct (isWhiteSpace c) eqn:Hc; [done|].
  simpl. by rewrite Hc.
Qed.

Lemma trimStart_head text :
  match trimStart text with c :: _ => isWhiteSpace c = false | [] => True end.
Proof.
  induction text as [|c text IH]; [done|].
  simpl. destruct (isWhiteSpace c) eqn:Hc; [done|]. done.
Qed.

Lemma trim_collapseWhiteSpace text :
  trim (collapseWhiteSpace false text)
  = join [SPACE] (whitespaceSeparatedWords text).
Proof.
  rewrite trim_trimEnd, trimStart_collapseWhiteSpace.
  unfold whitespaceSeparatedWords. rewrite <- wordsFrom_trimStart.
  pose proof (trimEnd_collapseWhiteSpace (trimStart text) [] [] false) as H.
  simpl in H. rewrite H.
  - by destruct (wordsFrom [] (trimStart text)).
  - constructor.
  - done.
  - intros _ _. apply trimStart_head.
Qed.

Lemma wordsFrom_app_word word : forall cur text,
  Forall (fun c => isWhiteSpace c = false) word ->
  wordsFrom cur (word ++ text) = wordsFrom (cur ++ word) text.
Proof.
  induction word as [|c word IH]; intros cur text Hword; simpl.
  - by rewrite app_nil_r.
  - apply Forall_cons in Hword as [Hc Hword]. rewrite Hc.
    rewrite IH by done. by rewrite <- app_assoc.
Qed.

Lemma wordsFrom_space cur text :
  cur <> [] -> wordsFrom cur (SPACE :: text) = cur :: wordsFrom [] text.
Proof. intros Hne. simpl. by destruct cur. Qed.

Lemma wordsFrom_join words :
  Forall isWord words -> wordsFrom [] (join [SPACE] words) = words.
Proof.
  induction 1 as [|word words [Hne Hword] Hwords IH]; [done|].
  destruct words as [|word' words].
  - simpl. rewrite <- (app_nil_r word) at 1.
    rewrite wordsFrom_app_word by done.
    simpl. destruct word; [by destruct Hne | done].
  - rewrite join_cons_cons, wordsFrom_app_word by done.
    change ([SPACE] ++ ?x) with (SPACE :: x).
    by rewrite wordsFrom_space, IH.
Qed.

Lemma whitespaceSeparatedWords_isWord text :
  Forall isWord (whitespaceSeparatedWords text).
Proof. apply wordsFrom_well_formed. constructor. Qed.

Lemma tokenize_words text : tokenize text = whitespaceSeparatedWords text.
Proof. by apply tokenize_wordsFrom. Qed.

Lemma tokenize_trim_collapse text :
  tokenize (trim (collapseWhiteSpace false text)) = tokenize text.
Proof.
  rewrite trim_collapseWhiteSpace, !tokenize_words.
  apply wordsFrom_join, whitespaceSeparatedWords_isWord.
Qed.

Lemma preprocessText_removeExtraSpaces toLowerCase text l p :
  preprocessText toLowerCase text
    {| lowercase := l; removePunctuation := p; removeExtraSpaces := true |}
  = join [SPACE]
      (whitespaceSeparatedWords
         (preprocessText toLowerCase text
            {| lowercase := l; removePunctuation := p;
               removeExtraSpaces := false |})).
Proof. unfold preprocessText. simpl. apply trim_collapseWhiteSpace. Qed.

Lemma tokenize_preprocessText toLowerCase text l p e :
  tokenize (preprocessText toLowerCase text
              {| lowercase := l; removePunctuation := p;
                 removeExtraSpaces := e |})
  = tokenize (preprocessText toLowerCase text
                {| lowercase := l; removePunctuation := p;
                   removeExtraSpaces := false |}).
Proof.
  destruct e; [|done]. unfold preprocessText. simpl.
  apply tokenize_trim_collapse.
Qed.

(** X13.  The [removeExtraSpaces] switch never changes the report: the
    tokens, hence the alignment and every count and rate, are the same with
    the switch on and off. *)
Theorem removeExtraSpaces_keeps_report
    (toLowerCase : jsstring -> jsstring) (reference prediction : jsstring)
    (l p : bool) :
  calculateWER toLowerCase reference prediction
    (Some {| lowercase := l; removePunctuation := p;
             removeExtraSpaces := true |})
  = calculateWER toLowerCase reference prediction
      (Some {| lowercase := l; removePunctuation := p;
               removeExtraSpaces := false |}).
Proof.
  rewrite !calculateWER_reportOfWords. unfold wordsOf.
  by rewrite !(tokenize_preprocessText _ _ l p true).
Qed.

(** X12.  With [removeExtraSpaces] on, the normaliser returns the words of
    the text (as the two earlier steps leave it) joined by single spaces:
    no white space at either end, no two white-space characters in a row,
    and U+0020 as the only white space. *)
Theorem removeExtraSpaces_joins_words
    (toLowerCase : jsstring -> jsstring) (text : jsstring) (l p : bool) :
  let words :=
    tokenize (preprocessText toLowerCase text
                {| lowercase := l; removePunctuation := p;
                   removeExtraSpaces := false |}) in
  preprocessText toLowerCase text
    {| lowercase := l; removePunctuation := p; removeExtraSpaces := true |}
  = join [SPACE] words
  /\ Forall isWord words.
Proof.
  intros words. subst words. rewrite tokenize_words.
  split; [apply preprocessText_removeExtraSpaces|].
  apply whitespaceSeparatedWords_isWord.
Qed.

Lemma isPunctuation_isKept c : isPunctuation c = negb (isKept c).
Proof.
  unfold isPunctuation, isKept.
  destruct (isWordChar c), (isWhiteSpace c), (inRange 192 591 c),
    (inRange 7680 7935 c); done.
Qed.

Lemma replacePunctuation_isKept s :
  Forall (fun c => isKept c = true) (replacePunctuation s).
Proof.
  unfold replacePunctuation. apply Forall_forall. intros c Hc.
  apply list_elem_of_fmap in Hc as (c0 & -> & _).
  rewrite isPunctuation_isKept. destruct (isKept c0) eqn:Hk; done.
Qed.

Lemma replacePunctuation_id s :
  Forall (fun c => isKept c = true) s -> replacePunctuation s = s.
Proof.
  unfold replacePunctuation. induction 1 as [|c s Hc _ IH]; [done|].
  simpl. rewrite IH, isPunctuation_isKept, Hc. done.
Qed.

Lemma Forall_join (P : N -> Prop) sep parts :
  Forall P sep -> Forall (Forall P) parts -> Forall P (join sep parts).
Proof.
  intros Hsep. induction 1 as [|part parts Hpart Hparts IH]; [constructor|].
  destruct parts as [|part' parts]; [done|].
  rewrite join_cons_cons. rewrite !Forall_app. done.
Qed.

Lemma Forall_wordsFrom (P : N -> Prop) text : forall cur,
  Forall P cur -> Forall P text -> Forall (Forall P) (wordsFrom cur text).
Proof.
  induction text as [|c text IH]; intros cur Hcur Htext; simpl.
  - destruct cur; [constructor|]. constructor; [done | constructor].
  - apply Forall_cons in Htext as [Hc Htext].
    destruct (isWhiteSpace c).
    + destruct cur; [by apply IH|]. constructor; [done|]. by apply IH.
    + apply IH; [|done]. apply Forall_app. split; [done|]. by constructor.
Qed.

Lemma preprocessText_isKept toLowerCase text l e :
  Forall (fun c => isKept c = true)
    (preprocessText toLowerCase text
       {| lowercase := l; removePunctuation := true;
          removeExtraSpaces := e |}).
Proof.
  destruct e.
  - rewrite preprocessText_removeExtraSpaces.
    apply Forall_join; [by repeat constructor|].
    apply Forall_wordsFrom; [constructor|].
    unfold preprocessText. simpl. apply replacePunctuation_isKept.
  - unfold preprocessText. simpl. apply replacePunctuation_isKept.
Qed.

(** X14.  With [lowercase] off, preprocessing a preprocessed text changes
    nothing. *)
Theorem preprocessText_idempotent
    (toLowerCase : jsstring -> jsstring) (text : jsstring)
    (options : PreprocessOptions) :
  lowercase options = false ->
  preprocessText toLowerCase (preprocessText toLowerCase text options) options
  = preprocessText toLowerCase text options.
Proof.
  destruct options as [l p e]. simpl. intros ->.
  destruct p, e.
  - rewrite (preprocessText_removeExtraSpaces _
               (preprocessText _ _ _) false true).
    rewrite (preprocessText_removeExtraSpaces _ text false true) at 2.
    f_equal.
    assert (Hkept := preprocessText_isKept toLowerCase text false true).
    unfold preprocessText at 1. simpl.
    rewrite replacePunctuation_id by done.
    rewrite preprocessText_removeExtraSpaces.
    apply wordsFrom_join, whitespaceSeparatedWords_isWord.
  - unfold preprocessText. simpl.
    apply replacePunctuation_id, replacePunctuation_isKept.
  - rewrite (preprocessText_removeExtraSpaces _
               (preprocessText _ _ _) false false).
    rewrite (preprocessText_removeExtraSpaces _ text false false) at 2.
    f_equal. unfold preprocessText at 1. simpl.
    rewrite preprocessText_removeExtraSpaces.
    apply wordsFrom_join, whitespaceSeparatedWords_isWord.
  - done.
Qed.

Lemma words_of_kept_text text :
  Forall (fun c => isKept c = true) text ->
  Forall (fun word =>
            word <> []
            /\ Forall (fun c => isPunctuation c = false
                                /\ isWhiteSpace c = false) word)
    (whitespaceSeparatedWords text).
Proof.
  intros Hkept.
  pose proof (whitespaceSeparatedWords_isWord text) as Hwords.
  pose proof (Forall_wordsFrom (fun c => isKept c = true) text []
                (Forall_nil_2 _) Hkept) as Hk.
  fold (whitespaceSeparatedWords text) in Hk.
  induction Hwords as [|word words [Hne Hws] _ IH]; [constructor|].
  apply Forall_cons in Hk as [Hk Hks].
  constructor; [|by apply IH]. split; [done|].
  rewrite Forall_forall in *. intros c Hc.
  rewrite isPunctuation_isKept, (Hk c Hc), (Hws c Hc). done.
Qed.

(** X15.  With [removePunctuation] on, every word handed to the aligner is
    non-empty and made of word characters only: no punctuation and no white
    space is left in it, whatever [toLowerCase] does before. *)
Theorem removePunctuation_cleans_tokens
    (toLowerCase : jsstring -> jsstring) (text : jsstring)
    (options : PreprocessOptions) :
  removePunctuation options = true ->
  Forall (fun word =>
            word <> []
            /\ Forall (fun c => isPunctuation c = false
                                /\ isWhiteSpace c = false) word)
    (wordsOf toLowerCase text (Some options)).
Proof.
  destruct options as [l p e]. simpl. intros ->. unfold wordsOf.
  rewrite tokenize_preprocessText, tokenize_words.
  apply words_of_kept_text, preprocessText_isKept.
Qed.

(** ** The error tables of the page *)

Section MapLemmas.
Context {V : Type}.
Implicit Types (m : list (jsstring * V)) (k : jsstring) (v : V).

Lemma mapGet_mapSet_eq m k v : mapGet (mapSet m k v) k = Some v.
Proof.
  induction m as [|[k' v'] m IH]; simpl.
  - by rewrite decide_True.
  - destruct (decide (k' = k)) as [->|Hne]; simpl.
    + by rewrite decide_True.
    + by rewrite decide_False.
Qed.

Lemma mapGet_mapSet_ne m k k' v :
  k <> k' -> mapGet (mapSet m k v) k' = mapGet m k'.
Proof.
  intros Hne. induction m as [|[k0 v0] m IH]; simpl.
  - by rewrite decide_False.
  - destruct (decide (k0 = k)) as [->|Hne0]; simpl.
    + by rewrite !decide_False.
    + by rewrite IH.
Qed.

Lemma mapSet_keys m k v :
  (mapSet m k v).*1 = if decide (k ∈ m.*1) then m.*1 else m.*1 ++ [k].
Proof.
  induction m as [|[k' v'] m IH].
  - cbn [mapSet fmap list_fmap fst].
    destruct (decide (k ∈ [])) as [H|H]; [|done].
    by apply elem_of_nil in H.
  - cbn [mapSet]. destruct (decide (k' = k)) as [->|Hne].
    + cbn [fmap list_fmap fst].
      destruct (decide (k ∈ k :: m.*1)) as [H|H]; [done|].
      destruct H. apply list_elem_of_here.
    + cbn [fmap list_fmap fst] in *. rewrite IH.
      destruct (decide (k ∈ m.*1)) as [Hin|Hnin];
        destruct (decide (k ∈ k' :: m.*1)) as [H|H].
      * done.
      * destruct H. by apply list_elem_of_further.
      * apply elem_of_cons in H as [->|H]; done.
      * done.
Qed.

Lemma mapSet_NoDup m k v : NoDup m.*1 -> NoDup (mapSet m k v).*1.
Proof.
  intros Hnd. rewrite mapSet_keys.
  destruct (decide (k ∈ m.*1)); [done|].
  apply NoDup_app. split; [done|]. split; [|apply NoDup_singleton].
  intros x Hx Hx'. apply list_elem_of_singleton in Hx' as ->. done.
Qed.

Lemma mapGet_elem_of m k v : mapGet m k = Some v -> (k, v) ∈ m.
Proof.
  induction m as [|[k' v'] m IH]; simpl; [done|].
  destruct (decide (k' = k)) as [->|Hne].
  - intros [= ->]. apply list_elem_of_here.
  - intros H. apply list_elem_of_further. by apply IH.
Qed.

Lemma elem_of_mapGet m k v : NoDup m.*1 -> (k, v) ∈ m -> mapGet m k = Some v.
Proof.
  induction m as [|[k' v'] m IH]; simpl; intros Hnd Hin.
  - by apply elem_of_nil in Hin.
  - apply NoDup_cons in Hnd as [Hk' Hnd].
    apply elem_of_cons in Hin as [[= -> ->]|Hin].
    + by rewrite decide_True.
    + rewrite decide_False; [by apply IH|].
      intros ->. apply Hk'. apply list_elem_of_fmap. by exists (k, v).
Qed.
End MapLemmas.

Lemma mapSet_sum (m : list (jsstring * nat)) k v :
  sum_list (mapSet m k v).*2 + default 0 (mapGet m k) = sum_list m.*2 + v.
Proof.
  induction m as [|[k' v'] m IH]; [simpl; lia|].
  cbn [mapSet mapGet].
  destruct (decide (k' = k)) as [->|Hne]; rewrite !fmap_cons;
    cbn [snd sum_list sum_list_with default from_option id]; lia.
Qed.

Lemma occurrences_snoc w words x :
  occurrences w (words ++ [x])
  = occurrences w words + (if decide (x = w) then 1 else 0).
Proof.
  unfold occurrences. rewrite filter_app, length_app, filter_cons, filter_nil.
  by destruct (decide (x = w)).
Qed.

(** The [Map] built by counting words one by one. *)
Lemma tallied_words (words : list jsstring) :
  let counts :=
    foldl (fun counts word =>
             mapSet counts word (default 0 (mapGet counts word) + 1))
      [] words in
  NoDup counts.*1
  /\ sum_list counts.*2 = length words
  /\ forall w, mapGet counts w
               = if decide (occurrences w words = 0) then None
                 else Some (occurrences w words).
Proof.
  induction words as [|x words IH] using rev_ind.
  - simpl. split; [constructor|]. done.
  - cbv zeta in *. rewrite foldl_snoc. destruct IH as (Hnd & Hsum & Hget).
    set (counts := foldl _ [] words) in *.
    split; [by apply mapSet_NoDup|]. split.
    + pose proof (mapSet_sum counts x (default 0 (mapGet counts x) + 1)).
      rewrite length_app. simpl. lia.
    + intros w. rewrite occurrences_snoc.
      destruct (decide (x = w)) as [->|Hne].
      * rewrite mapGet_mapSet_eq, Hget.
        destruct (decide (occurrences w words = 0)) as [->|?]; simpl.
        -- done.
        -- rewrite decide_False by lia. done.
      * rewrite mapGet_mapSet_ne, Hget, Nat.add_0_r by done. done.
Qed.

Section Sorting.
Context {A : Type} (count : A -> nat).

Lemma insertByCount_Permutation x sorted :
  insertByCount count x sorted ≡ₚ x :: sorted.
Proof.
  induction sorted as [|y rest IH]; simpl; [done|].
  destruct (count x <? count y); [|done].
  rewrite IH. apply Permutation_swap.
Qed.

Lemma sortByCount_Permutation l : sortByCount count l ≡ₚ l.
Proof.
  induction l as [|x l IH]; simpl; [done|].
  unfold sortByCount in *. simpl.
  by rewrite insertByCount_Permutation, IH.
Qed.

Lemma insertByCount_decreasing x sorted :
  decreasing (count <$> sorted) ->
  decreasing (count <$> insertByCount count x sorted).
Proof.
  unfold decreasing. induction sorted as [|y rest IH]; simpl; intros Hs.
  - repeat constructor.
  - destruct (Nat.ltb_spec (count x) (count y)) as [Hlt|Hge].
    + apply Sorted_inv in Hs as [Hrest Hhd]. simpl. constructor.
      * by apply IH.
      * destruct rest as [|z rest]; simpl.
        { constructor. lia. }
        destruct (count x <? count z); simpl; constructor.
        -- by apply HdRel_inv in Hhd.
        -- lia.
    + simpl. constructor; [done|]. constructor. done.
Qed.

Lemma sortByCount_decreasing l : decreasing (count <$> sortByCount count l).
Proof.
  induction l as [|x l IH]; [constructor|].
  unfold sortByCount in *. simpl. by apply insertByCount_decreasing.
Qed.
End Sorting.

(** What the table of counted words holds. *)
Lemma countWords_spec (words : list jsstring) :
  countsWords (countWords words) words.
Proof.
  unfold countsWords, countWords. cbv zeta.
  destruct (tallied_words words) as (Hnd & Hsum & Hget). cbv zeta in *.
  set (counts := foldl _ [] words) in *.
  set (toEntry := fun '(w, c) => {| word := w; wordCount := c |}).
  assert (Hperm := sortByCount_Permutation wordCount (toEntry <$> counts)).
  assert (Hwords : word <$> (toEntry <$> counts) = counts.*1).
  { rewrite <- list_fmap_compose. apply list_fmap_ext. by intros ? [? ?]. }
  assert (Hcounts : wordCount <$> (toEntry <$> counts) = counts.*2).
  { rewrite <- list_fmap_compose. apply list_fmap_ext. by intros ? [? ?]. }
  split; [by rewrite Hperm, Hcounts|].
  split; [by rewrite Hperm, Hwords|].
  split; [|split].
  - intros wc Hwc. rewrite Hperm in Hwc.
    apply list_elem_of_fmap in Hwc as ([w c] & -> & Hin). simpl.
    apply (elem_of_mapGet _ _ _ Hnd) in Hin. rewrite Hget in Hin.
    destruct (decide (occurrences w words = 0)); [done|].
    injection Hin as <-. lia.
  - intros w Hw. rewrite Hperm, Hwords.
    destruct (mapGet counts w) as [c|] eqn:Hc.
    + apply mapGet_elem_of in Hc. apply list_elem_of_fmap. by exists (w, c).
    + rewrite Hget in Hc. destruct (decide (occurrences w words = 0)) as [H0|];
        [|done].
      unfold occurrences in H0. apply length_zero_iff_nil in H0.
      assert (w ∈ filter (fun w' => w' = w) words) as Hin
        by (by apply list_elem_of_filter).
      rewrite H0 in Hin. by apply elem_of_nil in Hin.
  - apply sortByCount_decreasing.
Qed.

(** X16.  The insertion table and the deletion table list every inserted
    (deleted) word of the batch once, with the number of insertion
    (deletion) entries that carry it, so the counts add up to the number of
    such entries; the rows come by decreasing count. *)
Theorem insertion_and_deletion_tables (results : list IndexedResult) :
  countsWords (getInsertions results)
    (prediction <$> entriesOfType insertion results)
  /\ countsWords (getDeletions results)
       (reference <$> entriesOfType deletion results).
Proof. split; apply countWords_spec. Qed.

Lemma mapSet_sum_with {V} (f : V -> nat) (m : list (jsstring * V)) k v :
  sum_list_with f (mapSet m k v).*2 + from_option f 0 (mapGet m k)
  = sum_list_with f m.*2 + f v.
Proof.
  induction m as [|[k' v'] m IH]; [simpl; lia|].
  cbn [mapSet mapGet].
  destruct (decide (k' = k)) as [->|Hne]; rewrite !fmap_cons;
    cbn [snd sum_list_with from_option]; lia.
Qed.

Lemma withKey_snoc key subs sub :
  withKey key (subs ++ [sub])
  = withKey key subs
    ++ (if decide (substitutionKey sub = key) then [sub] else []).
Proof.
  unfold withKey. rewrite filter_app, filter_cons, filter_nil.
  by destruct (decide _).
Qed.

(** The [Map] built by [getSubstitutions]: under every key, the words of
    the first entry with that key, and the number of entries with it. *)
Lemma tallied_substitutions (subs : list AlignmentResult) :
  let counts :=
    foldl (fun counts sub =>
             let key := substitutionKey sub in
             match mapGet counts key with
             | Some entry =>
                 mapSet counts key
                   {| substitutedReference := substitutedReference entry;
                      substitutedPrediction := substitutedPrediction entry;
                      substitutionCount := substitutionCount entry + 1 |}
             | None =>
                 mapSet counts key
                   {| substitutedReference := reference sub;
                      substitutedPrediction := prediction sub;
                      substitutionCount := 1 |}
             end)
      [] subs in
  NoDup counts.*1
  /\ sum_list_with substitutionCount counts.*2 = length subs
  /\ forall key, mapGet counts key
                 = match withKey key subs with
                   | [] => None
                   | first :: rest =>
                       Some {| substitutedReference := reference first;
                               substitutedPrediction := prediction first;
                               substitutionCount := S (length rest) |}
                   end.
Proof.
  induction subs as [|sub subs IH] using rev_ind.
  - simpl. split; [constructor|]. done.
  - cbv zeta in *. rewrite foldl_snoc. destruct IH as (Hnd & Hsum & Hget).
    set (counts := foldl _ [] subs) in *.
    split; [|split].
    + destruct (mapGet counts (substitutionKey sub)); by apply mapSet_NoDup.
    + rewrite length_app. simpl.
      destruct (mapGet counts (substitutionKey sub)) as [entry|] eqn:He;
        match goal with
        | |- context [mapSet counts ?k ?v] =>
            pose proof (mapSet_sum_with substitutionCount counts k v) as H
        end; rewrite He in H; simpl in H; lia.
    + intros key. rewrite withKey_snoc.
      destruct (decide (substitutionKey sub = key)) as [<-|Hne].
      * rewrite Hget.
        destruct (withKey (substitutionKey sub) subs) as [|first rest];
          rewrite mapGet_mapSet_eq; simpl.
        -- done.
        -- rewrite length_app. simpl. done.
      * rewrite app_nil_r, <- Hget.
        destruct (mapGet counts (substitutionKey sub));
          by rewrite mapGet_mapSet_ne.
Qed.

(** A reference word without a space fixes where the key is cut. *)
Lemma substitutionKey_inj (a b : AlignmentResult) :
  SPACE ∉ reference a -> SPACE ∉ reference b ->
  substitutionKey a = substitutionKey b ->
  reference a = reference b /\ prediction a = prediction b.
Proof.
  unfold substitutionKey.
  generalize (reference a) (reference b) (prediction a) (prediction b).
  intros r. induction r as [|c r IH]; intros r' p p' Hr Hr' Heq.
  - destruct r' as [|c' r'].
    + simpl in Heq. split; [done|]. by simplify_list_eq.
    + simpl in Heq. injection Heq as <- _.
      destruct Hr'. apply list_elem_of_here.
  - destruct r' as [|c' r'].
    + simpl in Heq. injection Heq as -> _.
      destruct Hr. apply list_elem_of_here.
    + simpl in Heq. injection Heq as <- Heq.
      apply not_elem_of_cons in Hr as [_ Hr].
      apply not_elem_of_cons in Hr' as [_ Hr'].
      destruct (IH r' p p' Hr Hr' Heq) as [-> ->]. done.
Qed.

Lemma filter_ext_in {A} (P Q : A -> Prop) `{!forall x, Decision (P x)}
    `{!forall x, Decision (Q x)} (l : list A) :
  (forall x, x ∈ l -> P x <-> Q x) -> filter P l = filter Q l.
Proof.
  induction l as [|x l IH]; intros Hext; [done|].
  rewrite !filter_cons.
  rewrite IH by (intros y Hy; apply Hext; by apply list_elem_of_further).
  pose proof (Hext x (list_elem_of_here _ _)).
  destruct (decide (P x)), (decide (Q x)); tauto || done.
Qed.

Lemma withKey_withWords first subs :
  Forall (fun sub => SPACE ∉ reference sub) subs -> first ∈ subs ->
  withKey (substitutionKey first) subs
  = withWords (reference first) (prediction first) subs.
Proof.
  intros Hfree Hfirst. apply filter_ext_in. intros sub Hsub.
  rewrite Forall_forall in Hfree. split.
  - intros Hkey. apply substitutionKey_inj; auto.
  - intros [Hr Hp]. unfold substitutionKey. by rewrite Hr, Hp.
Qed.

Lemma getSubstitutions_exact (results : list IndexedResult) :
  Forall (fun sub => SPACE ∉ reference sub)
    (entriesOfType substitution results) ->
  forall entry, entry ∈ getSubstitutions results ->
    substitutionCount entry
    = length (withWords (substitutedReference entry)
                (substitutedPrediction entry)
                (entriesOfType substitution results))
    /\ 0 < substitutionCount entry.
Proof.
  unfold getSubstitutions. cbv zeta.
  set (subs := entriesOfType substitution results).
  intros Hfree entry Hentry.
  destruct (tallied_substitutions subs) as (Hnd & _ & Hget).
  cbv zeta in *. set (counts := foldl _ [] subs) in *.
  rewrite (sortByCount_Permutation substitutionCount (counts.*2)) in Hentry.
  apply list_elem_of_fmap in Hentry as ([key e] & -> & Hin). simpl.
  apply (elem_of_mapGet _ _ _ Hnd) in Hin. rewrite Hget in Hin.
  destruct (withKey key subs) as [|first rest] eqn:Hkey; [done|].
  injection Hin as <-. simpl.
  assert (Hfirst : first ∈ withKey key subs)
    by (rewrite Hkey; apply list_elem_of_here).
  apply list_elem_of_filter in Hfirst as [<- Hfirst].
  rewrite <- withKey_withWords, Hkey by done. simpl. lia.
Qed.

Lemma substitution_sum (results : list IndexedResult) :
  sum_list_with substitutionCount (getSubstitutions results)
  = length (entriesOfType substitution results).
Proof.
  unfold getSubstitutions. cbv zeta.
  destruct (tallied_substitutions (entriesOfType substitution results))
    as (_ & Hsum & _).
  cbv zeta in *. by rewrite (sortByCount_Permutation substitutionCount).
Qed.

(** X17.  The counts of the substitution table add up to the number of
    substitution entries of the batch and come in decreasing order; when no
    reference word contains a space, the key [reference -> prediction]
    cannot collide, and every row counts exactly the entries with its pair
    of words. *)
Theorem substitution_table (results : list IndexedResult) :
  let subs := entriesOfType substitution results in
  let table := getSubstitutions results in
  sum_list_with substitutionCount table = length subs
  /\ decreasing (substitutionCount <$> table)
  /\ (Forall (fun sub => SPACE ∉ reference sub) subs ->
      forall entry, entry ∈ table ->
        substitutionCount entry
        = length (withWords (substitutedReference entry)
                    (substitutedPrediction entry) subs)
        /\ 0 < substitutionCount entry).
Proof.
  intros subs table. split; [|split].
  - apply substitution_sum.
  - apply sortByCount_decreasing.
  - apply getSubstitutions_exact.
Qed.

Lemma tokenize_no_space text word :
  word ∈ tokenize text -> SPACE ∉ word.
Proof.
  intros Hword Hspace. rewrite tokenize_words in Hword.
  pose proof (whitespaceSeparatedWords_isWord text) as Hwords.
  rewrite Forall_forall in Hwords. destruct (Hwords word Hword) as [_ Hws].
  rewrite Forall_forall in Hws. specialize (Hws SPACE Hspace).
  by rewrite isWhiteSpace_SPACE in Hws.
Qed.

Lemma wordsOf_no_space toLowerCase text options word :
  word ∈ wordsOf toLowerCase text options -> SPACE ∉ word.
Proof. destruct options; apply tokenize_no_space. Qed.

(** In a computed report the reference word of an entry that is not an
    insertion is one of the reference tokens. *)
Lemma calculateWER_reference_words toLowerCase refText predText options r :
  calculateWER toLowerCase refText predText options = Some r ->
  Forall (fun a => type a <> insertion ->
                   reference a ∈ wordsOf toLowerCase refText options)
    (alignment r).
Proof.
  intros Hr.
  destruct (alignWordsWithPositions_invariants
              (wordsOf toLowerCase refText options)
              (wordsOf toLowerCase predText options))
    as (trace & errs & Halign & HA & _ & Hshape & _).
  destruct (calculateWER_fields _ _ _ _ _ _ Halign) as (r' & Hr' & Htrace & _).
  rewrite Hr in Hr'. injection Hr' as <-. rewrite Htrace.
  pose proof (referenceSide_positions _ _ HA) as Hpos.
  rewrite Forall_forall in *. intros a Ha Htype.
  specialize (Hshape a Ha). specialize (Hpos a Ha).
  unfold entryShape in Hshape.
  destruct (type a); try done;
    destruct Hshape as (_ & [p Hp] & _);
    destruct (Hpos p Hp) as [_ Hlookup];
    by eapply list_elem_of_lookup_2.
Qed.

Lemma mapRows_computed toLowerCase options data : forall index results,
  mapRows toLowerCase options index data = Some results ->
  Forall (fun r => exists row,
            calculateWER toLowerCase (rowReference row) (rowPrediction row)
              (Some options) = Some (result r)) results.
Proof.
  induction data as [|row data IH]; intros index results; simpl.
  - intros [= <-]. constructor.
  - destruct (calculateWER _ _ _ _) as [wer|] eqn:Hwer; [|done].
    destruct (mapRows _ _ _ data) as [rest|] eqn:Hrest; [|done].
    intros [= <-]. constructor; [by exists row | by eapply IH].
Qed.

Lemma computed_references_no_space toLowerCase options data results stats t :
  calculateResults toLowerCase data options = Some (results, stats) ->
  t <> insertion ->
  Forall (fun a => SPACE ∉ reference a) (entriesOfType t results).
Proof.
  unfold calculateResults.
  destruct (mapRows _ _ _ _) as [results'|] eqn:Hrows; [|done].
  intros [= <- _] Ht. apply mapRows_computed in Hrows.
  unfold entriesOfType. apply Forall_forall. intros a Ha.
  apply list_elem_of_bind in Ha as (r & Ha & Hr).
  apply list_elem_of_filter in Ha as [Htype Ha].
  rewrite Forall_forall in Hrows. destruct (Hrows r Hr) as [row Hrow].
  pose proof (calculateWER_reference_words _ _ _ _ _ Hrow) as Hwords.
  rewrite Forall_forall in Hwords.
  eapply wordsOf_no_space, Hwords; [done | congruence].
Qed.

(** X18.  For the results [calculateResults] computes the substitution
    table is exact: tokens never contain a space, so every row counts the
    substitution entries of the batch with its reference and prediction
    word, and no row is empty. *)
Theorem computed_substitution_table_exact
    (toLowerCase : jsstring -> jsstring) (data : list DataRow)
    (options : PreprocessOptions) (results : list IndexedResult)
    (stats : OverallStats) :
  calculateResults toLowerCase data options = Some (results, stats) ->
  forall entry, entry ∈ getSubstitutions results ->
    substitutionCount entry
    = length (withWords (substitutedReference entry)
                (substitutedPrediction entry)
                (entriesOfType substitution results))
    /\ 0 < substitutionCount entry.
Proof.
  intros Hresults. apply getSubstitutions_exact.
  by eapply computed_references_no_space.
Qed.

Lemma length_entriesOfType t results :
  length (entriesOfType t results)
  = sum_list ((fun r => countType t (alignment (result r))) <$> results).
Proof.
  unfold entriesOfType. induction results as [|r results IH]; [done|].
  rewrite bind_cons, length_app, fmap_cons, IH. done.
Qed.

Lemma calculateWER_counts toLowerCase refText predText options r :
  calculateWER toLowerCase refText predText options = Some r ->
  substitutions r = countType substitution (alignment r)
  /\ insertions r = countType insertion (alignment r)
  /\ deletions r = countType deletion (alignment r).
Proof.
  intros Hr.
  destruct (alignWordsWithPositions_sides
              (wordsOf toLowerCase refText options)
              (wordsOf toLowerCase predText options))
    as (trace & errs & Halign & _).
  destruct (calculateWER_fields _ _ _ _ _ _ Halign)
    as (r' & Hr' & Htrace & _ & Hs & Hi & Hd & _).
  rewrite Hr in Hr'. injection Hr' as <-. by rewrite Htrace.
Qed.

(** X19.  For computed results the three tables agree with the totals the
    overall statistics are made from: their counts add up to the sums of
    the per-sample substitutions, insertions and deletions. *)
Theorem tables_agree_with_totals
    (toLowerCase : jsstring -> jsstring) (data : list DataRow)
    (options : PreprocessOptions) (results : list IndexedResult)
    (stats : OverallStats) :
  calculateResults toLowerCase data options = Some (results, stats) ->
  sum_list_with substitutionCount (getSubstitutions results)
  = sum_list ((fun r => substitutions (result r)) <$> results)
  /\ sum_list (wordCount <$> getInsertions results)
     = sum_list ((fun r => insertions (result r)) <$> results)
  /\ sum_list (wordCount <$> getDeletions results)
     = sum_list ((fun r => deletions (result r)) <$> results).
Proof.
  unfold calculateResults.
  destruct (mapRows _ _ _ _) as [results'|] eqn:Hrows; [|done].
  intros [= <- _]. apply mapRows_computed in Hrows.
  assert (Hcounts : forall t (f : WERResult -> nat),
            (forall tl a b o r, calculateWER tl a b o = Some r ->
                                f r = countType t (alignment r)) ->
            length (entriesOfType t results')
            = sum_list ((fun r => f (result r)) <$> results')).
  { intros t f Hf. rewrite length_entriesOfType. f_equal.
    apply Forall_fmap_ext_1. eapply Forall_impl; [exact Hrows|].
    intros r [row Hrow]. simpl. symmetry. by eapply Hf. }
  split; [|split].
  - rewrite substitution_sum.
    apply Hcounts. intros. by eapply calculateWER_counts.
  - destruct (countWords_spec (prediction <$> entriesOfType insertion results'))
      as (Hsum & _).
    unfold getInsertions. rewrite Hsum, length_fmap.
    apply Hcounts. intros. by eapply calculateWER_counts.
  - destruct (countWords_spec (reference <$> entriesOfType deletion results'))
      as (Hsum & _).
    unfold getDeletions. rewrite Hsum, length_fmap.
    apply Hcounts. intros. by eapply calculateWER_counts.
Qed.

(** ** The CSV parser *)

Lemma length_splitOn sep s : forall cur,
  length (splitOn sep cur s) = S (countUnit sep s).
Proof.
  unfold countUnit. induction s as [|c s IH]; intros cur; [done|].
  simpl. rewrite filter_cons.
  destruct (N.eqb_spec c sep) as [->|Hne].
  - rewrite decide_True by done. simpl. by rewrite IH.
  - rewrite decide_False by done. apply IH.
Qed.

Lemma splitOn_pieces sep s : forall cur,
  sep ∉ cur ->
  Forall (fun piece => (sep ∉ piece)
                       /\ forall c, c ∈ piece -> c ∈ cur \/ c ∈ s)
    (splitOn sep cur s).
Proof.
  induction s as [|c s IH]; intros cur Hcur; simpl.
  - constructor; [|constructor]. split; [done|]. auto.
  - destruct (N.eqb_spec c sep) as [->|Hne].
    + constructor; [split; [done | auto]|].
      eapply Forall_impl; [apply (IH []), not_elem_of_nil|].
      intros piece [Hsep Hin]. split; [done|]. intros c Hc.
      destruct (Hin c Hc) as [H|H]; [by apply elem_of_nil in H|].
      right. by apply list_elem_of_further.
    + eapply Forall_impl; [apply (IH (cur ++ [c]))|].
      * rewrite not_elem_of_app. split; [done|].
        rewrite list_elem_of_singleton. congruence.
      * intros piece [Hsep Hin]. split; [done|]. intros c' Hc'.
        destruct (Hin c' Hc') as [H|H].
        -- apply elem_of_app in H as [H|H]; [by left|].
           apply list_elem_of_singleton in H as ->. right.
           apply list_elem_of_here.
        -- right. by apply list_elem_of_further.
Qed.

Lemma trimStart_elem c s : c ∈ trimStart s -> c ∈ s.
Proof.
  induction s as [|c' s IH]; [done|]. simpl.
  destruct (isWhiteSpace c'); [|done].
  intros H. apply list_elem_of_further. by apply IH.
Qed.

Lemma trim_elem c s : c ∈ trim s -> c ∈ s.
Proof.
  unfold trim. rewrite elem_of_reverse. intros H.
  apply trimStart_elem in H. rewrite elem_of_reverse in H.
  by apply trimStart_elem.
Qed.

Lemma trimStart_id s :
  match s with c :: _ => isWhiteSpace c = false | [] => True end ->
  trimStart s = s.
Proof. destruct s as [|c s]; [done|]. simpl. by intros ->. Qed.

Lemma trimEnd_head s :
  match s with c :: _ => isWhiteSpace c = false | [] => True end ->
  match trimEnd s with c :: _ => isWhiteSpace c = false | [] => True end.
Proof.
  induction s as [|c s IH] using rev_ind; [done|].
  intros Hhead. rewrite trimEnd_snoc.
  destruct (isWhiteSpace c) eqn:Hc; [|done].
  apply IH. destruct s as [|c' s]; [|done].
  simpl in Hhead. congruence.
Qed.

Lemma trimEnd_idempotent s : trimEnd (trimEnd s) = trimEnd s.
Proof.
  induction s as [|c s IH] using rev_ind; [done|].
  rewrite trimEnd_snoc. destruct (isWhiteSpace c) eqn:Hc; [done|].
  by rewrite trimEnd_snoc, Hc.
Qed.

Lemma trim_idempotent s : trim (trim s) = trim s.
Proof.
  rewrite !trim_trimEnd.
  rewrite (trimStart_id (trimEnd (trimStart s))).
  - apply trimEnd_idempotent.
  - apply trimEnd_head, trimStart_head.
Qed.

Lemma countUnit_0 c s : countUnit c s = 0 <-> c ∉ s.
Proof.
  unfold countUnit. rewrite length_zero_iff_nil. split.
  - intros Hnil Hin.
    assert (c ∈ filter (fun c' => c' = c) s) as H
      by (by apply list_elem_of_filter).
    rewrite Hnil in H. by apply elem_of_nil in H.
  - intros Hnin. induction s as [|c' s IH]; [done|].
    apply not_elem_of_cons in Hnin as [Hne Hnin].
    rewrite filter_cons, decide_False by congruence. by apply IH.
Qed.

Lemma length_omap_le {A B} (f : A -> option B) (l : list A) :
  length (omap f l) <= length l.
Proof.
  induction l as [|x l IH]; [done|].
  change (omap f (x :: l))
    with (match f x with Some y => y :: omap f l | None => omap f l end).
  destruct (f x); simpl; lia.
Qed.

Lemma parseLine_clean refIndex predIndex line row :
  LF ∉ line ->
  parseLine refIndex predIndex line = Some row ->
  cleanField (rowReference row) /\ cleanField (rowPrediction row).
Proof.
  intros Hline. unfold parseLine.
  destruct (Nat.ltb_spec (refIndex `max` predIndex)
              (length (splitOn COMMA [] line))) as [Hlt|]; [|done].
  intros [= <-]. simpl.
  pose proof (splitOn_pieces COMMA line [] (not_elem_of_nil _)) as Hpieces.
  rewrite Forall_forall in Hpieces.
  assert (Hclean : forall k, k < length (splitOn COMMA [] line) ->
            cleanField (trim (splitOn COMMA [] line !!! k))).
  { intros k Hk.
    destruct (Hpieces (splitOn COMMA [] line !!! k)) as [Hcomma Hin].
    { apply list_elem_of_lookup_total_2. done. }
    split; [apply trim_idempotent|]. split.
    - intros H. by apply trim_elem in H.
    - intros H. apply trim_elem, Hin in H as [H|H]; [|done].
      by apply elem_of_nil in H. }
  split; apply Hclean; lia.
Qed.

(** X20.  [parseCSV] throws the header-row error exactly when the trimmed
    content has no line feed, whatever else it holds. *)
Theorem parseCSV_needs_two_lines
    (toLowerCase : jsstring -> jsstring) (content : jsstring) :
  parseCSV toLowerCase content
  = Threw "CSV must have at least a header row and one data row"
  <-> LF ∉ trim content.
Proof.
  unfold parseCSV. cbv zeta. rewrite length_splitOn, <- countUnit_0.
  destruct (countUnit LF (trim content)) as [|k]; simpl.
  - done.
  - split; [|done]. repeat case_match; done.
Qed.

(** X21.  Every field [parseCSV] returns is trimmed and holds neither a
    comma nor a line feed, and there is at most one row per line after the
    header; lines with too few cells are skipped without an error. *)
Theorem parseCSV_rows_clean
    (toLowerCase : jsstring -> jsstring) (content : jsstring)
    (rows : list DataRow) :
  parseCSV toLowerCase content = Returned rows ->
  Forall (fun row => cleanField (rowReference row)
                     /\ cleanField (rowPrediction row)) rows
  /\ length rows <= countUnit LF (trim content).
Proof.
  unfold parseCSV. cbv zeta.
  pose proof (length_splitOn LF (trim content) []) as Hlen.
  pose proof (splitOn_pieces LF (trim content) [] (not_elem_of_nil _))
    as Hlines.
  set (lines := splitOn LF [] (trim content)) in *.
  destruct (length lines <? 2); [done|].
  destruct (findIndex _ _) as [refIndex|]; [|done].
  destruct (findIndex _ _) as [predIndex|]; [|done].
  intros [= <-]. split.
  - apply Forall_forall. intros row Hrow.
    apply list_elem_of_omap in Hrow as (line & Hline & Hparse).
    eapply parseLine_clean; [|exact Hparse].
    rewrite Forall_forall in Hlines. apply Hlines.
    eapply elem_of_sublist; [exact Hline | apply sublist_drop].
  - etrans; [apply length_omap_le|]. rewrite length_drop. lia.
Qed.

(** ** Symmetry, exactness and the batch *)

Lemma sameWord_sym (ref pred : list jsstring) i j :
  sameWord ref pred i j = sameWord pred ref j i.
Proof.
  unfold sameWord. apply bool_decide_ext. split; congruence.
Qed.

Lemma editCost_sym (ref pred : list jsstring) k : forall i j,
  i + j <= k -> editCost ref pred i j = editCost pred ref j i.
Proof.
  induction k as [|k IH]; intros i j Hk.
  - assert (i = 0) as -> by lia. assert (j = 0) as -> by lia. done.
  - destruct i as [|i]; destruct j as [|j].
    + done.
    + by rewrite editCost_0_l, editCost_0_r.
    + by rewrite editCost_0_l, editCost_0_r.
    + rewrite !editCost_S_S, sameWord_sym.
      rewrite (IH i j), (IH i (S j)), (IH (S i) j) by lia.
      destruct (sameWord pred ref (S j) (S i)); lia.
Qed.

Lemma editCost_zero (ref pred : list jsstring) i : forall j,
  i <= length ref -> j <= length pred ->
  editCost ref pred i j = 0 -> i = j /\ take i ref = take j pred.
Proof.
  induction i as [|i IH]; intros j Hi Hj Hzero.
  - rewrite editCost_0_l in Hzero. subst j. by rewrite !take_0.
  - destruct j as [|j]; [by rewrite editCost_0_r in Hzero|].
    rewrite editCost_S_S in Hzero.
    destruct (sameWord ref pred (S i) (S j)) eqn:Hsame; [|lia].
    destruct (IH j) as [-> Htake]; [lia | lia | done |].
    split; [done|].
    unfold sameWord in Hsame. apply bool_decide_eq_true in Hsame.
    rewrite !Nat.sub_succ, !Nat.sub_0_r in Hsame.
    destruct (lookup_lt_is_Some_2 ref j) as [w Hw]; [lia|].
    rewrite (take_S_r _ _ _ Hw). rewrite Hw in Hsame.
    rewrite (take_S_r pred _ w) by done. by rewrite Htake.
Qed.

Lemma calculateWER_totalErrors toLowerCase refText predText options :
  exists r,
    calculateWER toLowerCase refText predText options = Some r
    /\ totalErrors r
       = editCost (wordsOf toLowerCase refText options)
           (wordsOf toLowerCase predText options)
           (length (wordsOf toLowerCase refText options))
           (length (wordsOf toLowerCase predText options)).
Proof.
  destruct (alignWordsWithPositions_invariants
              (wordsOf toLowerCase refText options)
              (wordsOf toLowerCase predText options))
    as (trace & errors & Halign & _ & _ & _ & _ & Hcost).
  destruct (calculateWER_fields _ _ _ _ _ _ Halign)
    as (r & Hr & _ & _ & Hs & Hi & Hd & _).
  exists r. split; [done|]. unfold totalErrors.
  by rewrite Hs, Hi, Hd, <- errorCount_countType.
Qed.

(** X22.  The number of errors does not depend on which text is the
    reference: swapping the two texts gives the same total (the rate may
    differ, as it divides by the length of the reference). *)
Theorem error_count_symmetric
    (toLowerCase : jsstring -> jsstring) (text1 text2 : jsstring)
    (options : option PreprocessOptions) :
  exists r r',
    calculateWER toLowerCase text1 text2 options = Some r
    /\ calculateWER toLowerCase text2 text1 options = Some r'
    /\ totalErrors r = totalErrors r'.
Proof.
  destruct (calculateWER_totalErrors toLowerCase text1 text2 options)
    as (r & Hr & He).
  destruct (calculateWER_totalErrors toLowerCase text2 text1 options)
    as (r' & Hr' & He').
  exists r, r'. split; [done|]. split; [done|].
  rewrite He, He'. by eapply editCost_sym.
Qed.

(** X23.  A report has no error exactly when the two texts give the same
    token sequence. *)
Theorem no_error_iff_same_words
    (toLowerCase : jsstring -> jsstring) (refText predText : jsstring)
    (options : option PreprocessOptions) :
  exists r,
    calculateWER toLowerCase refText predText options = Some r
    /\ (totalErrors r = 0
        <-> wordsOf toLowerCase refText options
            = wordsOf toLowerCase predText options).
Proof.
  destruct (calculateWER_totalErrors toLowerCase refText predText options)
    as (r & Hr & He).
  exists r. split; [done|]. rewrite He. split.
  - intros Hzero. apply editCost_zero in Hzero as [Hlen Htake]; [|done..].
    rewrite take_ge in Htake by done. rewrite Htake, take_ge; [done|lia].
  - intros ->.
    set (X := wordsOf toLowerCase predText options).
    assert (Hdiag : forall i, editCost X X i i = 0).
    { induction i as [|i IH]; [done|].
      by rewrite editCost_S_S, sameWord_refl. }
    apply Hdiag.
Qed.

Lemma mapRows_returns toLowerCase options data : forall start,
  exists results,
    mapRows toLowerCase options start data = Some results
    /\ index <$> results = seq start (length data)
    /\ Forall2 (fun row r =>
                  calculateWER toLowerCase (rowReference row)
                    (rowPrediction row) (Some options) = Some (result r))
         data results.
Proof.
  induction data as [|row data IH]; intros start.
  - exists []. by repeat split; constructor.
  - destruct (calculateWER_returns toLowerCase (rowReference row)
                (rowPrediction row) (Some options)) as (r & Hr & _).
    destruct (IH (S start)) as (rest & Hrest & Hidx & Hall).
    cbn [mapRows]. rewrite Hr, Hrest. eexists. split; [done|].
    rewrite fmap_cons, Hidx. split; [done|]. by constructor.
Qed.

(** X24.  [calculateResults] returns for every batch: one result per data
    row, in the order of the rows, the k-th one being the report of the
    k-th row tagged with index k, and [totalSamples] is the number of
    rows. *)
Theorem calculateResults_returns
    (toLowerCase : jsstring -> jsstring) (data : list DataRow)
    (options : PreprocessOptions) :
  exists results,
    calculateResults toLowerCase data options
    = Some (results, overallStatsOf results)
    /\ index <$> results = seq 0 (length data)
    /\ totalSamples (overallStatsOf results) = length data
    /\ Forall2 (fun row r =>
                  calculateWER toLowerCase (rowReference row)
                    (rowPrediction row) (Some options) = Some (result r))
         data results.
Proof.
  destruct (mapRows_returns toLowerCase options data 0)
    as (results & Hrows & Hidx & Hall).
  exists results. unfold calculateResults. rewrite Hrows.
  split; [done|]. split; [done|]. split; [|done].
  simpl. apply (f_equal length) in Hidx.
  by rewrite length_fmap, length_seq in Hidx.
Qed.

(** ** The further properties on concrete inputs *)

(** X7 on the reference [a b c] and the hypothesis [a c]. *)
Lemma wer_at_most_one_witness :
  length (wordsOf asciiToLowerCase (js "a c") None)
  <= length (wordsOf asciiToLowerCase (js "a b c") None)
  /\ exists r,
       calculateWER asciiToLowerCase (js "a b c") (js "a c") None = Some r
       /\ (wer r <= 1)%Q.
Proof.
  assert (Hlen : length (wordsOf asciiToLowerCase (js "a c") None)
                 <= length (wordsOf asciiToLowerCase (js "a b c") None))
    by (vm_compute; lia).
  exact (conj Hlen (wer_at_most_one asciiToLowerCase (js "a b c") (js "a c")
                      None Hlen)).
Defined.

(** X14 on a text with punctuation and stray white space. *)
Lemma preprocessText_idempotent_witness :
  preprocessText asciiToLowerCase (js "  Hello,   world! ")
    {| lowercase := false; removePunctuation := true;
       removeExtraSpaces := true |} = js "Hello world"
  /\ preprocessText asciiToLowerCase (js "Hello world")
       {| lowercase := false; removePunctuation := true;
          removeExtraSpaces := true |} = js "Hello world".
Proof.
  assert (Hfirst : preprocessText asciiToLowerCase (js "  Hello,   world! ")
                     {| lowercase := false; removePunctuation := true;
                        removeExtraSpaces := true |} = js "Hello world")
    by (vm_compute; reflexivity).
  split; [exact Hfirst|].
  rewrite <- Hfirst at 1.
  rewrite (preprocessText_idempotent asciiToLowerCase
             (js "  Hello,   world! ")
             {| lowercase := false; removePunctuation := true;
                removeExtraSpaces := true |} eq_refl).
  exact Hfirst.
Defined.

(** X15 on ["fox,dog"] with the default options. *)
Lemma removePunctuation_cleans_tokens_witness :
  removePunctuation DEFAULT_PREPROCESS_OPTIONS = true
  /\ wordsOf asciiToLowerCase (js "fox,dog")
       (Some DEFAULT_PREPROCESS_OPTIONS) = [js "fox"; js "dog"]
  /\ Forall (fun word =>
               word <> []
               /\ Forall (fun c => isPunctuation c = false
                                   /\ isWhiteSpace c = false) word)
       (wordsOf asciiToLowerCase (js "fox,dog")
          (Some DEFAULT_PREPROCESS_OPTIONS)).
Proof.
  split; [reflexivity|]. split; [vm_compute; reflexivity|].
  exact (removePunctuation_cleans_tokens asciiToLowerCase (js "fox,dog")
           DEFAULT_PREPROCESS_OPTIONS eq_refl).
Defined.

(** X18 on the batch of two rows: its first substitution row. *)
Lemma computed_substitution_table_witness :
  calculateResults asciiToLowerCase sampleBatch initialPreprocessOptions
  = Some (sampleResults, overallStatsOf sampleResults)
  /\ exists entry rest,
       getSubstitutions sampleResults = entry :: rest
       /\ (substitutedReference entry, substitutedPrediction entry)
          = (js "d", js "x")
       /\ substitutionCount entry
          = length (withWords (substitutedReference entry)
                      (substitutedPrediction entry)
                      (entriesOfType substitution sampleResults))
       /\ 0 < substitutionCount entry.
Proof.
  assert (Hresults :
            calculateResults asciiToLowerCase sampleBatch
              initialPreprocessOptions
            = Some (sampleResults, overallStatsOf sampleResults))
    by (vm_compute; reflexivity).
  split; [exact Hresults|].
  destruct (getSubstitutions sampleResults) as [|entry rest] eqn:Htable;
    [vm_compute in Htable; discriminate Htable|].
  exists entry, rest. split; [reflexivity|].
  split; [vm_compute in Htable; by injection Htable as <- _|].
  apply (computed_substitution_table_exact asciiToLowerCase sampleBatch
           initialPreprocessOptions sampleResults _ Hresults).
  rewrite Htable. apply list_elem_of_here.
Defined.

(** X19 on the batch of two rows. *)
Lemma tables_agree_with_totals_witness :
  calculateResults asciiToLowerCase sampleBatch initialPreprocessOptions
  = Some (sampleResults, overallStatsOf sampleResults)
  /\ sum_list_with substitutionCount (getSubstitutions sampleResults) = 3
  /\ sum_list (wordCount <$> getInsertions sampleResults) = 0
  /\ sum_list (wordCount <$> getDeletions sampleResults) = 0.
Proof.
  assert (Hresults :
            calculateResults asciiToLowerCase sampleBatch
              initialPreprocessOptions
            = Some (sampleResults, overallStatsOf sampleResults))
    by (vm_compute; reflexivity).
  split; [exact Hresults|].
  destruct (tables_agree_with_totals asciiToLowerCase sampleBatch
              initialPreprocessOptions sampleResults _ Hresults)
    as (Hs & Hi & Hd).
  split; [exact (eq_trans Hs ltac:(vm_compute; reflexivity))|].
  split; [exact (eq_trans Hi ltac:(vm_compute; reflexivity))|].
  exact (eq_trans Hd ltac:(vm_compute; reflexivity)).
Defined.

(** X21 on a CSV text with a padded line and a line that is too short. *)
Lemma parseCSV_rows_clean_witness :
  parseCSV asciiToLowerCase sampleCSV
  = Returned [ {| rowReference := js "hello world";
                  rowPrediction := js "hello word" |} ]
  /\ Forall (fun row => cleanField (rowReference row)
                        /\ cleanField (rowPrediction row))
       [ {| rowReference := js "hello world";
            rowPrediction := js "hello word" |} ]
  /\ 1 <= countUnit LF (trim sampleCSV).
Proof.
  assert (Hparse : parseCSV asciiToLowerCase sampleCSV
                   = Returned [ {| rowReference := js "hello world";
                                   rowPrediction := js "hello word" |} ])
    by (vm_compute; reflexivity).
  split; [exact Hparse|].
  exact (parseCSV_rows_clean asciiToLowerCase sampleCSV _ Hparse).
Defined.
